(** * Task store and event stream of the Flask + HTMX demo (src/app.py)

    A shallow embedding of the stateful parts of [src/app.py] and of the
    handlers around them:

    - the in-memory task store ([tasks], [next_task_id]) and the handlers
      [get_tasks], [create_task], [get_task], [toggle_task], [update_task]
      and [delete_task];
    - the generator [generate] inside [sse_stream];
    - the readers [tasks_page], [edit_task_form] and [delete_task_confirm],
      the pages of [users] served by [infinite_scroll_users], and the check
      of [validate_email].

    Python values are modelled as follows.  An [int] is a [Z].  A [str] is a
    [string]; the result of [request.form.get(key)], which is a [str] or
    [None], is an [option string].  [request.form] and [request.args] are
    finite maps from field names to values.  A task is a dict with the four
    keys [id], [title], [completed] and [priority]; it becomes a record.  The
    module-level variables [tasks] and [next_task_id] become the two fields of
    [Store], which every handler receives and returns.

    Each task dict is created once, by [create_task] or by the literal that
    seeds [tasks], and is referenced from one slot of the list only
    ([delete_task] builds a new list of the same dicts, each kept at most
    once).  Mutating the dict found by [next(...)] is therefore the same as
    replacing the list slot it was found in, which is how [toggle_task] and
    [update_task] are written below. *)

From Stdlib Require Import ZArith String Ascii.
From stdpp Require Import base option list strings gmap pretty sorting.

#[local] Open Scope Z_scope.

(** ** Python and Flask values *)

(** The double-quote character, for the HTML and JSON literals. *)
Definition dq : string := String "034"%char EmptyString.

(** The line feed of ["\n"]. *)
Definition nl : string := String "010"%char EmptyString.

(** Truth value of a [str] or [None]: [None] and the empty string are
    false, so [not title] is [negb (truthy title)]. *)
Definition truthy (v : option string) : bool :=
  match v with
  | None => false
  | Some s => if decide (s = "") then false else true
  end.

(** [request.form] and [request.args]: field name to (first) value. *)
Abbreviation Form := (gmap string string).

Module Task.
(** A task dict: [{"id": .., "title": .., "completed": .., "priority": ..}].
    [priority] is whatever [request.form.get] returned, which for
    [update_task] may be [None]. *)
Record t : Type := mk {
  id : Z;
  title : string;
  completed : bool;
  priority : option string
}.

#[global] Instance eq_dec : EqDecision t.
Proof. solve_decision. Defined.

(** The item assignments [task['title'] = v], [task['completed'] = v]
    and [task['priority'] = v]. *)
Definition set_title (v : string) (task : t) : t :=
  mk (id task) v (completed task) (priority task).
Definition set_completed (v : bool) (task : t) : t :=
  mk (id task) (title task) v (priority task).
Definition set_priority (v : option string) (task : t) : t :=
  mk (id task) (title task) (completed task) v.
End Task.

Abbreviation Task := Task.t.

(** What a handler hands to [render_template]: the template's name and the
    value bound to [task] or [tasks].  The templates are not part of the
    embedding, so a rendered page is kept as this pair. *)
Inductive Context : Type :=
  | CtxTask (task : Task)
  | CtxTasks (tasks : list Task).

Inductive Body : Type :=
  | Html (text : string)
  | Rendered (template : string) (context : Context).

(** A Flask response: a body and a status code.  A handler that returns a
    body alone answers with 200. *)
Record Response : Type := mkResponse {
  body : Body;
  status : Z
}.

Definition ok (b : Body) : Response := mkResponse b 200.

(** The two error results of the task handlers. *)
Definition alert_error (msg : string) : Body :=
  Html ("<div class=" +:+ dq +:+ "alert alert-error" +:+ dq +:+ ">"
        +:+ msg +:+ "</div>").

Definition title_required : Response :=
  mkResponse (alert_error "Task title is required") 400.

Definition task_not_found : Response :=
  mkResponse (alert_error "Task not found") 404.

(** The spec's names for the two error kinds. *)
Definition ValidationError (r : Response) : Prop := status r = 400.
Definition NotFoundError (r : Response) : Prop := status r = 404.

(** ** The task store *)

Record Store : Type := mkStore {
  tasks : list Task;
  next_task_id : Z
}.

(** The module-level initial values of [tasks] and [next_task_id]. *)
Definition initial_store : Store :=
  mkStore
    [ Task.mk 1 "Learn HTMX" false (Some "high");
      Task.mk 2 "Build Flask App" false (Some "medium");
      Task.mk 3 "Deploy to Production" false (Some "low") ]
    4.

(** [next((t for t in tasks if t['id'] == task_id), None)]: the first task
    with that id, together with the list slot that holds it. *)
Definition find_task (task_id : Z) (ts : list Task) : option (nat * Task) :=
  list_find (λ t, Task.id t = task_id) ts.

(** [get_tasks]: GET /api/tasks. *)
Definition get_tasks (args : Form) (s : Store) : Response :=
  let filter_status := default "all" (args !! "status") in
  let filtered_tasks :=
    if decide (filter_status = "completed") then
      filter (λ t, Task.completed t = true) (tasks s)
    else if decide (filter_status = "active") then
      filter (λ t, Task.completed t = false) (tasks s)
    else tasks s in
  ok (Rendered "partials/task_list.html" (CtxTasks filtered_tasks)).

(** [create_task]: POST /api/tasks. *)
Definition create_task (form : Form) (s : Store) : Response * Store :=
  let title := form !! "title" in
  let priority := default "medium" (form !! "priority") in
  if negb (truthy title) then (title_required, s)
  else
    let new_task :=
      Task.mk (next_task_id s) (default "" title) false (Some priority) in
    (ok (Rendered "partials/task_item.html" (CtxTask new_task)),
     mkStore (tasks s ++ [new_task]) (next_task_id s + 1)).

(** [get_task]: GET /api/tasks/<task_id>. *)
Definition get_task (task_id : Z) (s : Store) : Response :=
  match find_task task_id (tasks s) with
  | None => task_not_found
  | Some (_, task) => ok (Rendered "partials/task_item.html" (CtxTask task))
  end.

(** [toggle_task]: PUT or POST /api/tasks/<task_id>/toggle. *)
Definition toggle_task (task_id : Z) (s : Store) : Response * Store :=
  match find_task task_id (tasks s) with
  | None => (task_not_found, s)
  | Some (i, task) =>
      let task' := Task.set_completed (negb (Task.completed task)) task in
      (ok (Rendered "partials/task_item.html" (CtxTask task')),
       mkStore (<[i := task']> (tasks s)) (next_task_id s))
  end.

(** [update_task]: PUT or POST /api/tasks/<task_id>.  The lookup comes
    first, the check of the title second. *)
Definition update_task (task_id : Z) (form : Form) (s : Store)
  : Response * Store :=
  match find_task task_id (tasks s) with
  | None => (task_not_found, s)
  | Some (i, task) =>
      let title := form !! "title" in
      let priority := form !! "priority" in
      if negb (truthy title) then (title_required, s)
      else
        let task' :=
          Task.set_priority priority
            (Task.set_title (default "" title) task) in
        (ok (Rendered "partials/task_item.html" (CtxTask task')),
         mkStore (<[i := task']> (tasks s)) (next_task_id s))
  end.

(** [delete_task]: DELETE /api/tasks/<task_id>. *)
Definition delete_task (task_id : Z) (s : Store) : Response * Store :=
  (ok (Html ""),
   mkStore (filter (λ t, Task.id t ≠ task_id) (tasks s)) (next_task_id s)).

(** ** Requests and runs *)

(** The requests that reach the task store. *)
Inductive Request : Type :=
  | GetTasks (args : Form)
  | CreateTask (form : Form)
  | GetTask (task_id : Z)
  | ToggleTask (task_id : Z)
  | UpdateTask (task_id : Z) (form : Form)
  | DeleteTask (task_id : Z).

Definition handle (r : Request) (s : Store) : Response * Store :=
  match r with
  | GetTasks args => (get_tasks args s, s)
  | CreateTask form => create_task form s
  | GetTask task_id => (get_task task_id s, s)
  | ToggleTask task_id => toggle_task task_id s
  | UpdateTask task_id form => update_task task_id form s
  | DeleteTask task_id => delete_task task_id s
  end.

(** The store after a sequence of requests, served one after the other. *)
Fixpoint run (rs : list Request) (s : Store) : Store :=
  match rs with
  | [] => s
  | r :: rs' => run rs' (handle r s).2
  end.

(** The id a request was given, read off its response: a create that
    succeeded answers with the rendered new task. *)
Definition created_id (r : Request) (resp : Response) : option Z :=
  match r, body resp with
  | CreateTask _, Rendered _ (CtxTask t) => Some (Task.id t)
  | _, _ => None
  end.

(** The ids handed out during a run, in the order of the requests. *)
Fixpoint created_ids (rs : list Request) (s : Store) : list Z :=
  match rs with
  | [] => []
  | r :: rs' =>
      let '(resp, s') := handle r s in
      match created_id r resp with
      | Some i => i :: created_ids rs' s'
      | None => created_ids rs' s'
      end
  end.

(** The ids of the tasks a store holds, in list order. *)
Definition ids (s : Store) : list Z := Task.id <$> tasks s.

(** The [completed] flag under which the store shows the task with an id,
    if it has one. *)
Definition completed_of (task_id : Z) (s : Store) : option bool :=
  Task.completed ∘ snd <$> find_task task_id (tasks s).

(** The largest id of a list of allocated ids ([0] when there is none). *)
Definition max_id (l : list Z) : Z := foldr Z.max 0 l.

(** Every task of the store has an id below [next_task_id]. *)
Definition bounded (s : Store) : Prop :=
  Forall (λ t, Task.id t < next_task_id s) (tasks s).

(** Every task of the store has a title other than the empty string. *)
Definition titled (s : Store) : Prop :=
  Forall (λ t, Task.title t ≠ "") (tasks s).

(** The priorities the spec allows. *)
Definition valid_priority (p : option string) : Prop :=
  p ∈ [Some "low"; Some "medium"; Some "high"].

(** The tasks a [get_tasks] response renders, for a given [status]
    argument of the query string. *)
Definition rendered_tasks (r : Response) : list Task :=
  match body r with
  | Rendered _ (CtxTasks ts) => ts
  | _ => []
  end.

Definition listed (filter_status : string) (s : Store) : list Task :=
  rendered_tasks (get_tasks {[ "status" := filter_status ]} s).

(** ** The event stream *)

(** The dict [data] that [generate] builds in each round. *)
Record Event : Type := mkEvent {
  count : Z;
  message : string;
  value : Z
}.

(** [json.dumps(data)]: the keys in the order of the dict literal, with
    [", "] and [": "] as separators.  The messages are of the form
    [Update n], which [json.dumps] writes without escapes. *)
Definition json_dumps (data : Event) : string :=
  "{" +:+ dq +:+ "count" +:+ dq +:+ ": " +:+ pretty (count data)
  +:+ ", " +:+ dq +:+ "message" +:+ dq +:+ ": "
  +:+ dq +:+ message data +:+ dq
  +:+ ", " +:+ dq +:+ "value" +:+ dq +:+ ": " +:+ pretty (value data)
  +:+ "}".

(** The string one round yields: [f"data: {json.dumps(data)}\n\n"]. *)
Definition sse_frame (data : Event) : string :=
  "data: " +:+ json_dumps data +:+ nl +:+ nl.

(** What the generator acts on outside itself: the state of the [random]
    module and the seconds spent in [time.sleep]. *)
Record World (Rng : Type) : Type := mkWorld {
  rng : Rng;
  slept : Z
}.
Arguments mkWorld {Rng} _ _.
Arguments rng {Rng} _.
Arguments slept {Rng} _.

(** A suspended [generate()]: the values of [range(10)] that the [for] loop
    has not reached yet. *)
Record Generator : Type := mkGenerator {
  pending : list Z
}.

(** Calling [generate()] makes a new generator at the start of its body. *)
Definition generate : Generator := mkGenerator (seqZ 0 10).

Section stream.
Context {Rng : Type}.

(** [random.randint], which draws a number and advances the state of the
    [random] module. *)
Variable randint : Z → Z → Rng → Z * Rng.

Definition sleep (secs : Z) (w : World Rng) : World Rng :=
  mkWorld (rng w) (slept w + secs).

(** The data of the round for [i], and the world after it. *)
Definition round (i : Z) (w : World Rng) : Event * World Rng :=
  let w1 := sleep 1 w in
  let '(v, r) := randint 1 100 (rng w1) in
  (mkEvent (i + 1) ("Update " +:+ pretty (i + 1)) v, mkWorld r (slept w1)).

(** One [next()] on the generator: run the loop body up to its [yield],
    or end with [StopIteration] ([None]) when [range(10)] is used up. *)
Definition gen_next (g : Generator) (w : World Rng)
  : option (string * Generator) * World Rng :=
  match pending g with
  | [] => (None, w)
  | i :: rest =>
      let '(data, w') := round i w in
      (Some (sse_frame data, mkGenerator rest), w')
  end.

(** The server iterating the body of [Response(generate(), ...)] until
    [StopIteration]: the frames sent, or [None] when [fuel] calls of
    [next()] did not reach the end. *)
Fixpoint consume (fuel : nat) (g : Generator) (w : World Rng)
  : option (list string) * World Rng :=
  match fuel with
  | O => (None, w)
  | S fuel' =>
      match gen_next g w with
      | (None, w') => (Some [], w')
      | (Some (frame, g'), w') =>
          let '(frames, w'') := consume fuel' g' w' in
          (cons frame <$> frames, w'')
      end
  end.

(** The data behind the frames of the rounds for the indices [idx]. *)
Fixpoint rounds (idx : list Z) (w : World Rng) : list Event * World Rng :=
  match idx with
  | [] => ([], w)
  | i :: rest =>
      let '(data, w') := round i w in
      let '(ds, w'') := rounds rest w' in
      (data :: ds, w'')
  end.
End stream.

(** [sse_stream]: GET /api/sse-stream answers with a new generator as its
    body, of type [text/event-stream]. *)
Record StreamResponse : Type := mkStreamResponse {
  stream : Generator;
  mimetype : string
}.

Definition sse_stream : StreamResponse :=
  mkStreamResponse generate "text/event-stream".

(** A sample [random.randint] to run the stream with: a linear
    congruential generator, reduced to the requested range. *)
Definition lcg_randint (a b : Z) (g : Z) : Z * Z :=
  (a + g `mod` (b - a + 1), (1103515245 * g + 12345) `mod` 2147483648).

(** ** The other readers of the task store *)

(** [tasks_page]: GET /tasks. *)
Definition tasks_page (s : Store) : Response :=
  ok (Rendered "tasks.html" (CtxTasks (tasks s))).

(** [edit_task_form]: GET /api/tasks/<task_id>/edit. *)
Definition edit_task_form (task_id : Z) (s : Store) : Response :=
  match find_task task_id (tasks s) with
  | None => task_not_found
  | Some (_, task) => ok (Rendered "partials/task_edit.html" (CtxTask task))
  end.

(** [delete_task_confirm]: GET /api/tasks/<task_id>/delete-confirm. *)
Definition delete_task_confirm (task_id : Z) (s : Store) : Response :=
  match find_task task_id (tasks s) with
  | None => task_not_found
  | Some (_, task) =>
      ok (Rendered "partials/task_delete_confirm.html" (CtxTask task))
  end.

(** ** A client of the event stream *)

Section streams.
Context {Rng : Type}.
Variable randint : Z → Z → Rng → Z * Rng.

(** [n] calls of [next()] on one generator, by a client that may stop
    before the end: the frames received, the generator and the world
    left. *)
Fixpoint pull (n : nat) (g : Generator) (w : World Rng)
  : list string * Generator * World Rng :=
  match n with
  | O => ([], g, w)
  | S n' =>
      match gen_next randint g w with
      | (None, w') => ([], g, w')
      | (Some (frame, g'), w') =>
          let '(frames, g'', w'') := pull n' g' w' in
          (frame :: frames, g'', w'')
      end
  end.
End streams.

(** ** Users and their pages *)

Module User.
(** A user dict: [{"id": .., "name": .., "email": ..}]. *)
Record t : Type := mk {
  id : Z;
  name : string;
  email : string
}.
End User.

(** The module-level list [users], built over [range(1, 51)]. *)
Definition users : list User.t :=
  (λ i, User.mk i ("User " +:+ pretty i)
                  ("user" +:+ pretty i +:+ "@example.com"))
  <$> seqZ 1 50.

(** A bound of a slice [l[start:end]] for a list of length [len]: a
    negative bound counts from the end, and the result is clipped to
    [0 .. len]. *)
Definition slice_bound (len i : Z) : Z :=
  let i' := if decide (i < 0) then i + len else i in
  if decide (i' < 0) then 0
  else if decide (len < i') then len
  else i'.

(** The slice [l[start:end]]. *)
Definition slice {A} (start end_ : Z) (l : list A) : list A :=
  let len := Z.of_nat (length l) in
  let lo := slice_bound len start in
  let hi := slice_bound len end_ in
  take (Z.to_nat (hi - lo)) (drop (Z.to_nat lo) l).

(** What [infinite_scroll_users] hands to
    [partials/user_infinite.html]. *)
Record UserPage : Type := mkUserPage {
  page_users : list User.t;
  page : Z;
  has_more : bool
}.

Section pagination.
(** [int] applied to a [str]: the number read, or [None] for the
    [ValueError] of a string that is no number. *)
Variable int : string → option Z.

(** [int(request.args.get('page', 1))]: the page asked for, 1 when the
    query string names none, [None] for the [ValueError] of [int]. *)
Definition requested_page (args : Form) : option Z :=
  match args !! "page" with
  | None => Some 1
  | Some v => int v
  end.

(** [infinite_scroll_users]: GET /api/users/infinite.  [None] stands for
    the [ValueError] that the handler lets through.  The half second of
    [time.sleep] has no part in the answer and is left out. *)
Definition infinite_scroll_users (args : Form) : option UserPage :=
  match requested_page args with
  | None => None
  | Some page =>
      let per_page := 10 in
      let start := (page - 1) * per_page in
      let end_ := start + per_page in
      let page_users := slice start end_ users in
      let has_more := bool_decide (end_ < Z.of_nat (length users)) in
      Some (mkUserPage page_users (page + 1) has_more)
  end.
End pagination.

(** A sample [int] for strings of decimal digits with an optional minus
    sign. *)
Definition digit_value (c : ascii) : option Z :=
  let n := Z.of_nat (nat_of_ascii c) in
  if decide (48 ≤ n ≤ 57) then Some (n - 48) else None.

Fixpoint digits_value (acc : Z) (s : string) : option Z :=
  match s with
  | EmptyString => Some acc
  | String c s' =>
      match digit_value c with
      | None => None
      | Some d => digits_value (10 * acc + d) s'
      end
  end.

Definition decimal_int (s : string) : option Z :=
  match s with
  | EmptyString => None
  | String "-" EmptyString => None
  | String "-" s' => Z.opp <$> digits_value 0 s'
  | _ => digits_value 0 s
  end.

(** ** Checking an e-mail address *)

(** [c in s] for a one-character string [c]. *)
Fixpoint contains (c : ascii) (s : string) : bool :=
  match s with
  | EmptyString => false
  | String c' s' => if decide (c' = c) then true else contains c s'
  end.

(** [s.split(sep)] for a one-character separator: the pieces between the
    occurrences of [sep], empty ones included. *)
Fixpoint split (sep : ascii) (s : string) : list string :=
  match s with
  | EmptyString => [""]
  | String c s' =>
      if decide (c = sep) then "" :: split sep s'
      else
        match split sep s' with
        | [] => [String c ""]
        | piece :: pieces => String c piece :: pieces
        end
  end.

(** [l[-1]] of a list of strings that is not empty. *)
Definition last_piece (l : list string) : string := default "" (last l).

Definition error_message (msg : string) : Body :=
  Html ("<div class=" +:+ dq +:+ "error-message" +:+ dq +:+ ">"
        +:+ msg +:+ "</div>").

Definition success_message (msg : string) : Body :=
  Html ("<div class=" +:+ dq +:+ "success-message" +:+ dq +:+ ">"
        +:+ msg +:+ "</div>").

(** [validate_email]: POST /api/validate-email. *)
Definition validate_email (form : Form) : Response :=
  let email := default "" (form !! "email") in
  if negb (truthy (Some email)) then
    mkResponse (error_message "Email is required") 400
  else if negb (contains "@" email)
          || negb (contains "." (last_piece (split "@" email))) then
    mkResponse (error_message "Please enter a valid email address") 400
  else
    mkResponse (success_message "✓ Email looks good!") 200.

(** ** Reading a frame back *)

(** [s] without its prefix [p], or [None] when [s] does not start with
    [p]. *)
Fixpoint strip_prefix (p s : string) : option string :=
  match p, s with
  | EmptyString, _ => Some s
  | String a p', String b s' =>
      if decide (a = b) then strip_prefix p' s' else None
  | String _ _, EmptyString => None
  end.

(** The number written by the decimal digits at the start of [s],
    continuing the number [acc], and what follows the digits. *)
Fixpoint read_digits (acc : Z) (s : string) : Z * string :=
  match s with
  | EmptyString => (acc, s)
  | String c s' =>
      match digit_value c with
      | Some d => read_digits (10 * acc + d) s'
      | None => (acc, s)
      end
  end.

Definition starts_with_digit (s : string) : bool :=
  match s with
  | EmptyString => false
  | String c _ => bool_decide (is_Some (digit_value c))
  end.

(** A JSON integer at the start of [s], and what follows it. *)
Definition read_int (s : string) : option (Z * string) :=
  match s with
  | EmptyString => None
  | String c s' =>
      if decide (c = "-"%char) then
        if starts_with_digit s' then
          let '(n, rest) := read_digits 0 s' in Some (- n, rest)
        else None
      else if starts_with_digit s then Some (read_digits 0 s)
      else None
  end.

(** A character that a JSON string holds as it is: neither the quote that
    ends the string nor the backslash that starts an escape. *)
Definition plain_char (c : ascii) : bool :=
  bool_decide (c ≠ "034"%char ∧ c ≠ "092"%char).

Fixpoint plain (s : string) : bool :=
  match s with
  | EmptyString => true
  | String c s' => plain_char c && plain s'
  end.

(** The text of a JSON string without escapes, read up to its closing
    quote, and what follows the quote. *)
Fixpoint read_string (s : string) : option (string * string) :=
  match s with
  | EmptyString => None
  | String c s' =>
      if decide (c = "034"%char) then Some ("", s')
      else if plain_char c then
        '(text, rest) ← read_string s'; Some (String c text, rest)
      else None
  end.

(** What a client reads out of one frame of the stream: the JSON object
    after [data: ], with its three fields in the order [generate] writes
    them, closed by the empty line that ends the event. *)
Definition decode_frame (frame : string) : option Event :=
  s1 ← strip_prefix ("data: {" +:+ dq +:+ "count" +:+ dq +:+ ": ") frame;
  '(c, s2) ← read_int s1;
  s3 ← strip_prefix (", " +:+ dq +:+ "message" +:+ dq +:+ ": " +:+ dq) s2;
  '(m, s4) ← read_string s3;
  s5 ← strip_prefix (", " +:+ dq +:+ "value" +:+ dq +:+ ": ") s4;
  '(v, s6) ← read_int s5;
  if decide (s6 = "}" +:+ nl +:+ nl) then Some (mkEvent c m v) else None.

(** * Properties of the task store *)

(** Membership of a concrete id in a concrete list, by evaluation. *)
Ltac by_evaluation :=
  match goal with
  | |- ?P => apply (@bool_decide_unpack P _); vm_compute; exact I
  end.

(** ** Looking a task up *)

Section find_task.
Implicit Types (ts pre post : list Task) (t : Task) (task_id : Z).

(** A successful lookup splits the list at the first task with the id. *)
Lemma find_task_split task_id ts i t :
  find_task task_id ts = Some (i, t) →
  ts = take i ts ++ t :: drop (S i) ts
  ∧ length (take i ts) = i
  ∧ Task.id t = task_id
  ∧ task_id ∉ Task.id <$> take i ts.
Proof.
  unfold find_task. intros (Hi & Hid & Hbefore)%list_find_Some.
  split_and!; [by rewrite take_drop_middle | | done |].
  - apply length_take_le. apply lookup_lt_Some in Hi. lia.
  - intros (u & Hu & [j Hj]%list_elem_of_lookup)%list_elem_of_fmap.
    apply lookup_take_Some in Hj as [Hj Hlt].
    by apply (Hbefore j u).
Qed.

Lemma find_task_None task_id ts :
  find_task task_id ts = None ↔ task_id ∉ Task.id <$> ts.
Proof.
  unfold find_task. rewrite list_find_None, Forall_forall. split.
  - intros H (u & -> & Hu)%list_elem_of_fmap. by apply (H u).
  - intros H u Hu Heq. apply H, list_elem_of_fmap. by exists u.
Qed.

Lemma find_task_is_Some task_id ts :
  task_id ∈ Task.id <$> ts → is_Some (find_task task_id ts).
Proof.
  intros Hin. destruct (find_task task_id ts) eqn:E; [by eexists |].
  by apply find_task_None in E.
Qed.

(** The first task with an id that does not occur earlier is the one
    found. *)
Lemma find_task_middle task_id pre t post :
  Task.id t = task_id → task_id ∉ Task.id <$> pre →
  find_task task_id (pre ++ t :: post) = Some (length pre, t).
Proof.
  intros Hid Hpre. unfold find_task. apply list_find_Some. split_and!.
  - by rewrite list_lookup_middle.
  - done.
  - intros j u Hj Hlt Hu. apply Hpre, list_elem_of_fmap. exists u.
    split; [done |]. rewrite lookup_app_l in Hj by done.
    by eapply list_elem_of_lookup_2.
Qed.

Lemma insert_middle pre t t' post :
  <[length pre := t']> (pre ++ t :: post) = pre ++ t' :: post.
Proof. by rewrite insert_app_r_alt, Nat.sub_diag. Qed.
End find_task.

(** ** Creating with no title *)

(** C6.  Whatever else the form holds (any priority, or none) and whatever
    the store, [create_task] with an empty or absent title answers 400, the
    spec's ValidationError, and returns the store as it was: no task is
    appended and [next_task_id] is not advanced. *)
Theorem create_task_without_title (form : Form) (s : Store) :
  form !! "title" = None ∨ form !! "title" = Some "" →
  create_task form s = (title_required, s)
  ∧ ValidationError (create_task form s).1
  ∧ tasks (create_task form s).2 = tasks s
  ∧ next_task_id (create_task form s).2 = next_task_id s.
Proof.
  intros Htitle.
  assert (create_task form s = (title_required, s)) as ->; [| done].
  unfold create_task. by destruct Htitle as [-> | ->].
Qed.

Lemma create_task_without_title_witness :
  create_task {[ "title" := ""; "priority" := "high" ]} initial_store
    = (title_required, initial_store)
  ∧ create_task {[ "priority" := "low" ]} initial_store
    = (title_required, initial_store).
Proof.
  split.
  - apply (create_task_without_title
             {[ "title" := ""; "priority" := "high" ]} initial_store).
    right. vm_compute. reflexivity.
  - apply (create_task_without_title {[ "priority" := "low" ]} initial_store).
    left. vm_compute. reflexivity.
Defined.

(** ** Listing *)

(** C7.  In every store the tasks listed as active and those listed as
    completed have no task in common, and a task is listed under "all"
    exactly when it is listed under one of the two.  Each listing is the
    tasks of the store that match the filter, in the order of the store
    (so a subsequence of it), and [get_tasks] answers 200 for every query
    string. *)
Theorem get_tasks_partition (s : Store) :
  (∀ t, ¬ (t ∈ listed "active" s ∧ t ∈ listed "completed" s))
  ∧ (∀ t, t ∈ listed "all" s ↔ t ∈ listed "active" s ∨ t ∈ listed "completed" s)
  ∧ listed "all" s = tasks s
  ∧ listed "active" s = filter (λ t, Task.completed t = false) (tasks s)
  ∧ listed "completed" s = filter (λ t, Task.completed t = true) (tasks s)
  ∧ listed "active" s `sublist_of` tasks s
  ∧ listed "completed" s `sublist_of` tasks s
  ∧ (∀ args, status (get_tasks args s) = 200).
Proof.
  assert (listed "all" s = tasks s) as Hall by done.
  assert (listed "active" s = filter (λ t, Task.completed t = false) (tasks s))
    as Hact by done.
  assert (listed "completed" s
          = filter (λ t, Task.completed t = true) (tasks s)) as Hcom by done.
  rewrite Hall, Hact, Hcom. split_and!; try done.
  - intros t [[Hf _]%list_elem_of_filter [Ht _]%list_elem_of_filter].
    congruence.
  - intros t. rewrite !list_elem_of_filter.
    destruct (Task.completed t); intuition congruence.
  - apply sublist_filter.
  - apply sublist_filter.
Qed.

(** ** Deleting *)

(** C9.  [delete_task] answers 200 for every id and store.  The first call
    keeps, in order, exactly the tasks with another id; a second call with
    the same id answers 200 again and returns the store the first one
    left.  Neither call touches [next_task_id]. *)
Theorem delete_task_idempotent (task_id : Z) (s : Store) :
  status (delete_task task_id s).1 = 200
  ∧ tasks (delete_task task_id s).2
    = filter (λ t, Task.id t ≠ task_id) (tasks s)
  ∧ (task_id ∉ ids (delete_task task_id s).2)
  ∧ next_task_id (delete_task task_id s).2 = next_task_id s
  ∧ status (delete_task task_id (delete_task task_id s).2).1 = 200
  ∧ (delete_task task_id (delete_task task_id s).2).2
    = (delete_task task_id s).2.
Proof.
  split_and!; try done.
  - unfold ids. simpl.
    intros (t & -> & [Hne _]%list_elem_of_filter)%list_elem_of_fmap. done.
  - unfold delete_task. simpl. f_equal.
    rewrite list_filter_filter. apply list_filter_iff. tauto.
Qed.

(** ** Toggling *)

(** What [toggle_task] does to a store whose first task with the id is [t],
    after the tasks [pre]. *)
Lemma toggle_task_middle (task_id : Z) (s : Store) pre t post :
  tasks s = pre ++ t :: post →
  Task.id t = task_id →
  task_id ∉ Task.id <$> pre →
  toggle_task task_id s
  = (ok (Rendered "partials/task_item.html"
           (CtxTask (Task.set_completed (negb (Task.completed t)) t))),
     mkStore (pre ++ Task.set_completed (negb (Task.completed t)) t :: post)
             (next_task_id s)).
Proof.
  intros Hs Hid Hpre. unfold toggle_task.
  rewrite Hs, (find_task_middle task_id pre t post Hid Hpre).
  by rewrite insert_middle.
Qed.

(** A store that has a task with the id splits at the first such task. *)
Lemma ids_split (task_id : Z) (s : Store) :
  task_id ∈ ids s →
  ∃ pre t post,
    tasks s = pre ++ t :: post
    ∧ Task.id t = task_id
    ∧ task_id ∉ Task.id <$> pre.
Proof.
  intros [[i t] Hfind]%find_task_is_Some.
  apply find_task_split in Hfind as (Hs & _ & Hid & Hpre).
  by exists (take i (tasks s)), t, (drop (S i) (tasks s)).
Qed.

Lemma toggle_task_absent (task_id : Z) (s : Store) :
  task_id ∉ ids s → toggle_task task_id s = (task_not_found, s).
Proof.
  intros Hin%find_task_None. unfold toggle_task. by rewrite Hin.
Qed.

(** C8.  When the store has a task with the id, toggling answers 200,
    the first toggle negates the [completed] flag of that task, and the
    second toggle gives back the flag, and with it the whole store, as they
    were before the two calls.  When no task has the id, [toggle_task]
    answers 404, the spec's NotFoundError, and leaves the store alone. *)
Theorem toggle_task_involution (task_id : Z) (s : Store) :
  (task_id ∈ ids s →
     status (toggle_task task_id s).1 = 200
     ∧ status (toggle_task task_id (toggle_task task_id s).2).1 = 200
     ∧ completed_of task_id (toggle_task task_id s).2
       = negb <$> completed_of task_id s
     ∧ completed_of task_id (toggle_task task_id (toggle_task task_id s).2).2
       = completed_of task_id s
     ∧ (toggle_task task_id (toggle_task task_id s).2).2 = s)
  ∧ (task_id ∉ ids s →
     toggle_task task_id s = (task_not_found, s)
     ∧ NotFoundError (toggle_task task_id s).1).
Proof.
  split.
  - intros (pre & t & post & Hs & Hid & Hpre)%ids_split.
    pose proof (toggle_task_middle task_id s pre t post Hs Hid Hpre) as H1.
    set (t' := Task.set_completed (negb (Task.completed t)) t) in *.
    set (s1 := mkStore (pre ++ t' :: post) (next_task_id s)) in *.
    assert (toggle_task task_id s1 = (ok (Rendered "partials/task_item.html"
              (CtxTask (Task.set_completed (negb (Task.completed t')) t'))),
            mkStore (pre ++ Task.set_completed (negb (Task.completed t')) t'
                       :: post) (next_task_id s1))) as H2
      by by apply toggle_task_middle.
    assert (Task.set_completed (negb (Task.completed t')) t' = t) as Ht.
    { destruct t as [? ? c ?]. simpl. by rewrite negb_involutive. }
    rewrite Ht in H2. rewrite H1. simpl. rewrite H2. simpl.
    assert (mkStore (pre ++ t :: post) (next_task_id s) = s) as Hback.
    { destruct s as [ts n]. simpl in *. by rewrite Hs. }
    rewrite Hback. split_and!; try done.
    unfold completed_of. rewrite Hs. simpl.
    by rewrite !find_task_middle.
  - intros Hin. rewrite (toggle_task_absent _ _ Hin). done.
Qed.

Lemma toggle_task_involution_witness :
  (toggle_task 2 (toggle_task 2 initial_store).2).2 = initial_store
  ∧ toggle_task 99 initial_store = (task_not_found, initial_store).
Proof.
  split.
  - apply (proj1 (toggle_task_involution 2 initial_store)).
    by_evaluation.
  - apply (proj2 (toggle_task_involution 99 initial_store)).
    by_evaluation.
Defined.

(** C10.  When the store has a task with the id, [toggle_task] replaces
    the first such task by a task with the same id, title and priority and
    the negated [completed] flag; the tasks before and after it, their
    order and [next_task_id] stay as they were. *)
Theorem toggle_task_frame (task_id : Z) (s : Store) :
  task_id ∈ ids s →
  ∃ pre t post,
    tasks s = pre ++ t :: post
    ∧ Task.id t = task_id
    ∧ (task_id ∉ Task.id <$> pre)
    ∧ tasks (toggle_task task_id s).2
      = pre ++ Task.mk (Task.id t) (Task.title t)
                       (negb (Task.completed t)) (Task.priority t) :: post
    ∧ next_task_id (toggle_task task_id s).2 = next_task_id s.
Proof.
  intros (pre & t & post & Hs & Hid & Hpre)%ids_split.
  exists pre, t, post.
  by rewrite (toggle_task_middle task_id s pre t post Hs Hid Hpre).
Qed.

Lemma toggle_task_frame_witness :
  ∃ pre t post,
    tasks initial_store = pre ++ t :: post
    ∧ Task.id t = 2
    ∧ (2 ∉ Task.id <$> pre)
    ∧ tasks (toggle_task 2 initial_store).2
      = pre ++ Task.mk (Task.id t) (Task.title t)
                       (negb (Task.completed t)) (Task.priority t) :: post
    ∧ next_task_id (toggle_task 2 initial_store).2
      = next_task_id initial_store.
Proof.
  apply (toggle_task_frame 2 initial_store).
  unfold ids. simpl. set_solver.
Defined.

(** ** Updating *)

Lemma update_task_absent (task_id : Z) (form : Form) (s : Store) :
  task_id ∉ ids s → update_task task_id form s = (task_not_found, s).
Proof.
  intros Hin%find_task_None. unfold update_task. by rewrite Hin.
Qed.

Lemma update_task_without_title (task_id : Z) (form : Form) (s : Store) :
  task_id ∈ ids s → truthy (form !! "title") = false →
  update_task task_id form s = (title_required, s).
Proof.
  intros [[i t] Hfind]%find_task_is_Some Htitle. unfold update_task.
  by rewrite Hfind, Htitle.
Qed.

Lemma update_task_middle (task_id : Z) (form : Form) (s : Store)
    title pre t post :
  tasks s = pre ++ t :: post →
  Task.id t = task_id →
  task_id ∉ Task.id <$> pre →
  form !! "title" = Some title → title ≠ "" →
  update_task task_id form s
  = (ok (Rendered "partials/task_item.html"
           (CtxTask (Task.mk (Task.id t) title (Task.completed t)
                             (form !! "priority")))),
     mkStore (pre ++ Task.mk (Task.id t) title (Task.completed t)
                             (form !! "priority") :: post)
             (next_task_id s)).
Proof.
  intros Hs Hid Hpre Htitle Hne. unfold update_task.
  rewrite Hs, (find_task_middle task_id pre t post Hid Hpre), Htitle.
  simpl. rewrite decide_False by done. simpl.
  by rewrite insert_middle.
Qed.

(** C3, as the handler has it.  [update_task] looks the task up before it
    looks at the title.  With no task of that id it answers 404
    (NotFoundError), whatever the title.  With such a task and an empty or
    absent title it answers 400 (ValidationError).  In both cases the store
    stays as it was.  Otherwise it answers 200 and the first task with the
    id gets the submitted title and priority and keeps its id and its
    [completed] flag, while the tasks before and after it, their order and
    [next_task_id] stay as they were. *)
Theorem update_task_spec (task_id : Z) (form : Form) (s : Store) :
  (task_id ∉ ids s →
     update_task task_id form s = (task_not_found, s)
     ∧ NotFoundError (update_task task_id form s).1)
  ∧ (task_id ∈ ids s → truthy (form !! "title") = false →
     update_task task_id form s = (title_required, s)
     ∧ ValidationError (update_task task_id form s).1)
  ∧ (task_id ∈ ids s →
     ∀ title, form !! "title" = Some title → title ≠ "" →
     ∃ pre t post,
       tasks s = pre ++ t :: post
       ∧ Task.id t = task_id
       ∧ (task_id ∉ Task.id <$> pre)
       ∧ status (update_task task_id form s).1 = 200
       ∧ tasks (update_task task_id form s).2
         = pre ++ Task.mk (Task.id t) title (Task.completed t)
                          (form !! "priority") :: post
       ∧ next_task_id (update_task task_id form s).2 = next_task_id s).
Proof.
  split_and!.
  - intros Hin. by rewrite (update_task_absent _ _ _ Hin).
  - intros Hin Htitle. by rewrite (update_task_without_title _ _ _ Hin Htitle).
  - intros (pre & t & post & Hs & Hid & Hpre)%ids_split title Htitle Hne.
    exists pre, t, post.
    by rewrite (update_task_middle _ _ _ title pre t post Hs Hid Hpre Htitle Hne).
Qed.

Lemma update_task_spec_witness :
  update_task 99 {[ "title" := "Ship it"; "priority" := "low" ]} initial_store
    = (task_not_found, initial_store)
  ∧ update_task 2 {[ "priority" := "low" ]} initial_store
    = (title_required, initial_store)
  ∧ ∃ pre t post,
      tasks initial_store = pre ++ t :: post
      ∧ Task.id t = 2
      ∧ (2 ∉ Task.id <$> pre)
      ∧ status (update_task 2 {[ "title" := "Ship it"; "priority" := "low" ]}
                  initial_store).1 = 200
      ∧ tasks (update_task 2 {[ "title" := "Ship it"; "priority" := "low" ]}
                 initial_store).2
        = pre ++ Task.mk (Task.id t) "Ship it" (Task.completed t)
                   (({[ "title" := "Ship it"; "priority" := "low" ]} : Form)
                      !! "priority") :: post
      ∧ next_task_id
          (update_task 2 {[ "title" := "Ship it"; "priority" := "low" ]}
             initial_store).2 = next_task_id initial_store.
Proof.
  split_and!.
  - apply (proj1 (update_task_spec 99 _ initial_store)). by_evaluation.
  - apply (proj1 (proj2 (update_task_spec 2 _ initial_store)));
      [by_evaluation | vm_compute; reflexivity].
  - apply (proj2 (proj2 (update_task_spec 2 _ initial_store)));
      [by_evaluation | vm_compute; reflexivity | discriminate].
Defined.

(** C3 as stated fails where the id is absent and the title is empty: the
    answer is 404, not the 400 of a ValidationError. *)
Lemma update_task_absent_id_empty_title :
  ({[ "title" := ""; "priority" := "high" ]} : Form) !! "title" = Some ""
  ∧ update_task 99 {[ "title" := ""; "priority" := "high" ]} initial_store
    = (task_not_found, initial_store)
  ∧ ¬ ValidationError
        (update_task 99 {[ "title" := ""; "priority" := "high" ]}
           initial_store).1.
Proof. split_and!; [vm_compute; reflexivity | reflexivity | discriminate]. Qed.

(** ** Allocation of ids *)

(** What holds of every task still holds of the tasks a filter keeps. *)
Lemma Forall_kept {A} (P Q : A → Prop) `{!∀ x, Decision (Q x)} (l : list A) :
  Forall P l → Forall P (filter Q l).
Proof.
  rewrite !Forall_forall. intros Hall x [_ Hx]%list_elem_of_filter.
  by apply Hall.
Qed.

Section allocation.
Implicit Types (r : Request) (rs : list Request) (s : Store).

(** A request either is a create that succeeds, is given the value of
    [next_task_id] and advances it by one, or is given no id and leaves
    [next_task_id] alone. *)
Lemma handle_created_id r s :
  match created_id r (handle r s).1 with
  | Some i =>
      i = next_task_id s
      ∧ next_task_id (handle r s).2 = next_task_id s + 1
  | None => next_task_id (handle r s).2 = next_task_id s
  end.
Proof.
  destruct r as [args | form | task_id | task_id | task_id form | task_id];
    simpl; try done.
  - unfold create_task. by destruct (truthy (form !! "title")).
  - unfold toggle_task. by destruct (find_task _ _) as [[i t] |].
  - unfold update_task. destruct (find_task _ _) as [[i t] |]; [| done].
    by destruct (truthy (form !! "title")).
Qed.

Lemma handle_bounded r s : bounded s → bounded (handle r s).2.
Proof.
  unfold bounded. intros Hs.
  destruct r as [args | form | task_id | task_id | task_id form | task_id];
    simpl; try done.
  - unfold create_task. destruct (truthy (form !! "title")); [| done].
    simpl. apply Forall_app. split.
    + eapply Forall_impl; [done |]. simpl. lia.
    + apply Forall_singleton. simpl. lia.
  - unfold toggle_task.
    destruct (find_task _ _) as [[i t] |] eqn:Hfind; [| done]. simpl.
    apply Forall_insert; [done |].
    apply list_find_Some in Hfind as (Hi & _ & _).
    by apply (Forall_lookup_1 _ _ _ _ Hs Hi).
  - unfold update_task.
    destruct (find_task _ _) as [[i t] |] eqn:Hfind; [| done].
    destruct (truthy (form !! "title")); [| done]. simpl.
    apply Forall_insert; [done |].
    apply list_find_Some in Hfind as (Hi & _ & _).
    by apply (Forall_lookup_1 _ _ _ _ Hs Hi).
  - by apply Forall_kept.
Qed.

Lemma run_bounded rs s : bounded s → bounded (run rs s).
Proof.
  revert s. induction rs as [| r rs IH]; intros s Hs; [done |].
  simpl. by apply IH, handle_bounded.
Qed.

(** The ids handed out by a run are consecutive, from [next_task_id] on,
    and the run leaves [next_task_id] just after the last of them. *)
Lemma created_ids_consecutive rs s :
  created_ids rs s
  = seqZ (next_task_id s) (Z.of_nat (length (created_ids rs s)))
  ∧ next_task_id (run rs s)
    = next_task_id s + Z.of_nat (length (created_ids rs s)).
Proof.
  revert s. induction rs as [| r rs IH]; intros s.
  { simpl. split; [done | lia]. }
  simpl. pose proof (handle_created_id r s) as Hr.
  destruct (handle r s) as [resp s'] eqn:Hh. simpl in *.
  destruct (IH s') as [Hids Hnext].
  destruct (created_id r resp) as [i |].
  - destruct Hr as [-> Hs']. rewrite Hs' in *. split.
    + rewrite seqZ_cons by (simpl; lia). f_equal.
      rewrite Hids at 1. f_equal. simpl length. lia.
    + rewrite Hnext. simpl length. lia.
  - rewrite Hr in *. done.
Qed.

Lemma seqZ_sorted (m : Z) (k : nat) :
  StronglySorted Z.lt (seqZ m (Z.of_nat k)).
Proof.
  revert m. induction k as [| k IH]; intros m.
  { rewrite seqZ_nil by done. constructor. }
  rewrite seqZ_cons by lia.
  replace (Z.pred (Z.of_nat (S k))) with (Z.of_nat k) by lia.
  constructor; [apply IH |].
  apply Forall_seqZ. lia.
Qed.

Lemma max_id_app (l1 l2 : list Z) :
  max_id (l1 ++ l2) = Z.max (max_id l1) (max_id l2).
Proof.
  unfold max_id. induction l1 as [| x l1 IH]; simpl.
  - assert (0 ≤ foldr Z.max 0 l2); [| lia].
    induction l2; simpl; lia.
  - rewrite IH. lia.
Qed.

Lemma max_id_seqZ (m : Z) (k : nat) :
  0 < m → max_id (seqZ m (Z.of_nat k)) = if k is O then 0 else m + Z.of_nat k - 1.
Proof.
  intros Hm. induction k as [| k IH]; [done |].
  rewrite seqZ_S, max_id_app, IH. unfold max_id. simpl.
  destruct k; lia.
Qed.
End allocation.

(** The seeded store respects the bound, and so does every store a run
    reaches from it. *)
Lemma initial_store_bounded : bounded initial_store.
Proof. unfold bounded. simpl. repeat constructor. Qed.

Lemma reachable_next_task_id (rs : list Request) :
  next_task_id (run rs initial_store)
  = 4 + Z.of_nat (length (created_ids rs initial_store)).
Proof. by destruct (created_ids_consecutive rs initial_store) as [_ ->]. Qed.

Lemma create_task_with_title (form : Form) (s : Store) :
  truthy (form !! "title") = true →
  created_ids [CreateTask form] s = [next_task_id s].
Proof. intros Htitle. simpl. unfold create_task. by rewrite Htitle. Qed.

(** C2.  Take any run of requests against the seeded store, creates mixed
    with deletes and the other requests.  The ids it hands out are strictly
    increasing, so no two are equal.  A create that follows the run is
    given the largest id allocated so far (among the seeded ids and those
    handed out by the run) plus one, and no task of the store has that id.
    An id [d] of a task in the store is not handed out again by any
    requests [rs'] that follow the deletion of that task. *)
Theorem created_ids_fresh (rs rs' : list Request) (form : Form) (d : Z) :
  StronglySorted Z.lt (created_ids rs initial_store)
  ∧ NoDup (created_ids rs initial_store)
  ∧ (truthy (form !! "title") = true →
       created_ids [CreateTask form] (run rs initial_store)
       = [max_id (ids initial_store ++ created_ids rs initial_store) + 1]
       ∧ (max_id (ids initial_store ++ created_ids rs initial_store) + 1
          ∉ ids (run rs initial_store)))
  ∧ (d ∈ ids (run rs initial_store) →
       d ∉ created_ids rs' (delete_task d (run rs initial_store)).2).
Proof.
  pose proof (run_bounded rs _ initial_store_bounded) as Hbound.
  pose proof (reachable_next_task_id rs) as Hnext.
  destruct (created_ids_consecutive rs initial_store) as [Hids _].
  split_and!.
  - rewrite Hids. apply seqZ_sorted.
  - rewrite Hids. apply NoDup_seqZ.
  - intros Htitle.
    assert (max_id (ids initial_store ++ created_ids rs initial_store) + 1
            = next_task_id (run rs initial_store)) as ->.
    { rewrite Hnext, max_id_app.
      change (max_id (ids initial_store)) with 3.
      rewrite Hids at 1. rewrite max_id_seqZ by done.
      change (next_task_id initial_store) with 4.
      destruct (length _); lia. }
    split; [by apply create_task_with_title |].
    unfold ids. intros (t & Ht & Hin)%list_elem_of_fmap.
    unfold bounded in Hbound. rewrite Forall_forall in Hbound.
    specialize (Hbound t Hin). lia.
  - unfold ids. intros (t & -> & Hin)%list_elem_of_fmap.
    unfold bounded in Hbound. rewrite Forall_forall in Hbound.
    specialize (Hbound t Hin).
    destruct (created_ids_consecutive rs'
                (delete_task (Task.id t) (run rs initial_store)).2)
      as [-> _].
    rewrite elem_of_seqZ. simpl. lia.
Qed.

Lemma created_ids_fresh_witness :
  (created_ids [CreateTask {[ "title" := "Write spec" ]}]
     (run [CreateTask {[ "title" := "Plan" ]}; DeleteTask 4] initial_store)
   = [max_id (ids initial_store
              ++ created_ids [CreateTask {[ "title" := "Plan" ]}; DeleteTask 4]
                   initial_store) + 1]
   ∧ (max_id (ids initial_store
              ++ created_ids [CreateTask {[ "title" := "Plan" ]}; DeleteTask 4]
                   initial_store) + 1
      ∉ ids (run [CreateTask {[ "title" := "Plan" ]}; DeleteTask 4]
               initial_store)))
  ∧ (2 ∉ created_ids [CreateTask {[ "title" := "Again" ]}]
           (delete_task 2 (run [] initial_store)).2).
Proof.
  split.
  - apply (proj1 (proj2 (proj2
      (created_ids_fresh [CreateTask {[ "title" := "Plan" ]}; DeleteTask 4]
         [] {[ "title" := "Write spec" ]} 0)))).
    vm_compute. reflexivity.
  - apply (proj2 (proj2 (proj2
      (created_ids_fresh [] [CreateTask {[ "title" := "Again" ]}] ∅ 2)))).
    by_evaluation.
Defined.

(** ** Creating in an empty store *)

(** C4 as stated fails on the seeded store: once its three tasks are
    deleted the store is empty, and the task created then has id 4. *)
Lemma create_task_in_emptied_store :
  tasks (run [DeleteTask 1; DeleteTask 2; DeleteTask 3] initial_store) = []
  ∧ tasks (create_task {[ "title" := "Write spec"; "priority" := "high" ]}
             (run [DeleteTask 1; DeleteTask 2; DeleteTask 3] initial_store)).2
    = [Task.mk 4 "Write spec" false (Some "high")]
  ∧ ¬ ∃ t,
        tasks (create_task {[ "title" := "Write spec"; "priority" := "high" ]}
                 (run [DeleteTask 1; DeleteTask 2; DeleteTask 3]
                    initial_store)).2 = [t]
        ∧ Task.id t = 1.
Proof.
  assert (tasks (create_task {[ "title" := "Write spec"; "priority" := "high" ]}
             (run [DeleteTask 1; DeleteTask 2; DeleteTask 3] initial_store)).2
          = [Task.mk 4 "Write spec" false (Some "high")]) as Hcreated
    by (vm_compute; reflexivity).
  split_and!; [vm_compute; reflexivity | done |].
  rewrite Hcreated. intros (t & [= <-] & Hid). discriminate.
Qed.

(** C4, as the store has it.  When a run against the seeded store has left
    no task, creating "Write spec" with priority "high" leaves exactly one
    task, not completed, of priority "high", whose id is the value of
    [next_task_id].  That value is 4 plus the number of tasks created
    before, hence at least 4: the ids 1 to 3 went to the seeded tasks. *)
Theorem create_task_in_empty_store (rs : list Request) (form : Form) :
  tasks (run rs initial_store) = [] →
  form !! "title" = Some "Write spec" →
  form !! "priority" = Some "high" →
  tasks (create_task form (run rs initial_store)).2
  = [Task.mk (next_task_id (run rs initial_store)) "Write spec" false
             (Some "high")]
  ∧ next_task_id (run rs initial_store)
    = 4 + Z.of_nat (length (created_ids rs initial_store))
  ∧ 4 ≤ next_task_id (run rs initial_store).
Proof.
  intros Hempty Htitle Hpriority.
  pose proof (reachable_next_task_id rs) as Hnext.
  split_and!; [| done | lia].
  unfold create_task. by rewrite Htitle, Hpriority, Hempty.
Qed.

Lemma create_task_in_empty_store_witness :
  tasks (create_task {[ "title" := "Write spec"; "priority" := "high" ]}
           (run [DeleteTask 1; DeleteTask 2; DeleteTask 3] initial_store)).2
  = [Task.mk
       (next_task_id
          (run [DeleteTask 1; DeleteTask 2; DeleteTask 3] initial_store))
       "Write spec" false (Some "high")]
  ∧ next_task_id (run [DeleteTask 1; DeleteTask 2; DeleteTask 3] initial_store)
    = 4 + Z.of_nat (length (created_ids
                              [DeleteTask 1; DeleteTask 2; DeleteTask 3]
                              initial_store))
  ∧ 4 ≤ next_task_id
          (run [DeleteTask 1; DeleteTask 2; DeleteTask 3] initial_store).
Proof.
  apply (create_task_in_empty_store
           [DeleteTask 1; DeleteTask 2; DeleteTask 3]
           {[ "title" := "Write spec"; "priority" := "high" ]});
    vm_compute; reflexivity.
Defined.

(** ** Titles and priorities of the stored tasks *)

Lemma truthy_Some (v : option string) :
  truthy v = true → ∃ x, v = Some x ∧ x ≠ "".
Proof.
  destruct v as [x |]; [| done]. simpl. case_decide; [done |]. by exists x.
Qed.

Lemma initial_store_titled : titled initial_store.
Proof. unfold titled. simpl. by repeat constructor. Qed.

Lemma handle_titled (r : Request) (s : Store) :
  titled s → titled (handle r s).2.
Proof.
  unfold titled. intros Hs.
  destruct r as [args | form | task_id | task_id | task_id form | task_id];
    simpl; try done.
  - unfold create_task. destruct (truthy (form !! "title")) eqn:Htitle; [| done].
    apply truthy_Some in Htitle as (x & -> & Hx). simpl.
    apply Forall_app. split; [done |]. by apply Forall_singleton.
  - unfold toggle_task.
    destruct (find_task _ _) as [[i t] |] eqn:Hfind; [| done]. simpl.
    apply Forall_insert; [done |].
    apply list_find_Some in Hfind as (Hi & _ & _).
    by apply (Forall_lookup_1 _ _ _ _ Hs Hi).
  - unfold update_task.
    destruct (find_task _ _) as [[i t] |] eqn:Hfind; [| done].
    destruct (truthy (form !! "title")) eqn:Htitle; [| done].
    apply truthy_Some in Htitle as (x & -> & Hx). simpl.
    by apply Forall_insert.
  - by apply Forall_kept.
Qed.

Lemma run_titled (rs : list Request) (s : Store) :
  titled s → titled (run rs s).
Proof.
  revert s. induction rs as [| r rs IH]; intros s Hs; [done |].
  simpl. by apply IH, handle_titled.
Qed.

(** C5 as stated fails for the priority: [create_task] stores the priority
    it is sent, here one outside low, medium and high. *)
Lemma create_task_keeps_any_priority :
  tasks (create_task {[ "title" := "Write spec"; "priority" := "urgent" ]}
           initial_store).2
  = tasks initial_store ++ [Task.mk 4 "Write spec" false (Some "urgent")]
  ∧ ¬ valid_priority (Some "urgent")
  ∧ ¬ Forall (λ t, valid_priority (Task.priority t))
        (tasks (create_task {[ "title" := "Write spec"; "priority" := "urgent" ]}
                  initial_store).2).
Proof.
  assert (¬ valid_priority (Some "urgent")) as Hurgent by by_evaluation.
  split_and!; [vm_compute; reflexivity | done |].
  intros Hall. apply Hurgent.
  rewrite Forall_forall in Hall.
  apply (Hall (Task.mk 4 "Write spec" false (Some "urgent"))).
  by_evaluation.
Qed.

(** C5, as the handlers have it.  Every task of every store that a run
    reaches from the seeded store has a title other than the empty string.
    [create_task] and [update_task] with an empty or absent title return the
    store as it was, [create_task] answering 400 and [update_task] 400 when
    a task has the id.  A create with a title appends a task with that
    title and with the priority that was sent, whatever string it is, or
    "medium" when none was sent. *)
Theorem stored_titles_nonempty
    (rs : list Request) (form : Form) (task_id : Z) (s : Store) :
  titled (run rs initial_store)
  ∧ (truthy (form !! "title") = false →
       create_task form s = (title_required, s)
       ∧ ValidationError (create_task form s).1
       ∧ (update_task task_id form s).2 = s
       ∧ (task_id ∈ ids s → ValidationError (update_task task_id form s).1))
  ∧ (truthy (form !! "title") = true →
       ∃ title,
         form !! "title" = Some title
         ∧ title ≠ ""
         ∧ tasks (create_task form s).2
           = tasks s
             ++ [Task.mk (next_task_id s) title false
                         (Some (default "medium" (form !! "priority")))]).
Proof.
  split_and!.
  - apply run_titled, initial_store_titled.
  - intros Htitle.
    assert (create_task form s = (title_required, s)) as Hcreate.
    { unfold create_task. by rewrite Htitle. }
    rewrite Hcreate. split_and!; try done.
    + unfold update_task. destruct (find_task _ _) as [[i t] |]; [| done].
      by rewrite Htitle.
    + intros Hin. by rewrite (update_task_without_title _ _ _ Hin Htitle).
  - intros Htitle. unfold create_task. rewrite Htitle.
    apply truthy_Some in Htitle as (x & -> & Hx). by exists x.
Qed.

Lemma stored_titles_nonempty_witness :
  (create_task {[ "title" := "" ]} initial_store
   = (title_required, initial_store)
   ∧ ValidationError (create_task {[ "title" := "" ]} initial_store).1
   ∧ (update_task 2 {[ "title" := "" ]} initial_store).2 = initial_store
   ∧ (2 ∈ ids initial_store →
      ValidationError (update_task 2 {[ "title" := "" ]} initial_store).1))
  ∧ ∃ title,
      ({[ "title" := "Write spec" ]} : Form) !! "title" = Some title
      ∧ title ≠ ""
      ∧ tasks (create_task {[ "title" := "Write spec" ]} initial_store).2
        = tasks initial_store
          ++ [Task.mk (next_task_id initial_store) title false
                (Some (default "medium"
                         (({[ "title" := "Write spec" ]} : Form)
                            !! "priority")))].
Proof.
  split.
  - apply (proj1 (proj2
      (stored_titles_nonempty [] {[ "title" := "" ]} 2 initial_store))).
    vm_compute. reflexivity.
  - apply (proj2 (proj2
      (stored_titles_nonempty [] {[ "title" := "Write spec" ]} 2
         initial_store))).
    vm_compute. reflexivity.
Defined.

(** * Properties of the event stream *)

Lemma lcg_randint_range (a b g : Z) : a ≤ b → a ≤ (lcg_randint a b g).1 ≤ b.
Proof.
  intros Hab. unfold lcg_randint. simpl.
  pose proof (Z.mod_pos_bound g (b - a + 1)). lia.
Qed.

(** ** Reading the frames back *)

Section decode.
Implicit Types (s t rest : string) (x : N) (z : Z).

Lemma append_cons (c : ascii) s t : String c s +:+ t = String c (s +:+ t).
Proof. done. Qed.

Lemma append_nil t : "" +:+ t = t.
Proof. done. Qed.

Lemma append_assoc s t rest : (s +:+ t) +:+ rest = s +:+ (t +:+ rest).
Proof.
  induction s as [| c s IH]; [done |]. by rewrite !append_cons, IH.
Qed.

Lemma strip_prefix_app p s : strip_prefix p (p +:+ s) = Some s.
Proof.
  induction p as [| c p IH]; [by destruct s |].
  rewrite append_cons. cbn. by rewrite decide_True.
Qed.

Lemma digit_value_pretty x :
  (x < 10)%N → digit_value (pretty_N_char x) = Some (Z.of_N x).
Proof.
  intros Hx.
  assert (x = 0 ∨ x = 1 ∨ x = 2 ∨ x = 3 ∨ x = 4 ∨ x = 5 ∨ x = 6 ∨ x = 7
          ∨ x = 8 ∨ x = 9)%N as Hcases by lia.
  repeat (destruct Hcases as [-> | Hcases]; [done |]). by subst.
Qed.

Lemma pretty_N_go_app x s t : pretty_N_go x s +:+ t = pretty_N_go x (s +:+ t).
Proof.
  revert s. induction (N.lt_wf_0 x) as [x _ IH]; intros s.
  assert (x = 0 ∨ 0 < x)%N as [-> | Hx] by lia; [done |].
  rewrite (pretty_N_go_step x s), (pretty_N_go_step x (s +:+ t)) by done.
  rewrite IH by by apply N.div_lt. by rewrite append_cons.
Qed.

Lemma read_digits_pretty x s :
  read_digits 0 (pretty_N_go x s) = read_digits (Z.of_N x) s.
Proof.
  revert s. induction (N.lt_wf_0 x) as [x _ IH]; intros s.
  assert (x = 0 ∨ 0 < x)%N as [-> | Hx] by lia; [done |].
  rewrite pretty_N_go_step by done. rewrite IH by by apply N.div_lt.
  cbn. rewrite digit_value_pretty by by apply N.mod_lt.
  f_equal. pose proof (N.div_mod x 10 ltac:(done)) as Hdiv.
  transitivity (Z.of_N (10 * (x `div` 10) + x `mod` 10)).
  - by rewrite N2Z.inj_add, N2Z.inj_mul.
  - by rewrite <- Hdiv.
Qed.

Lemma starts_with_digit_pretty x s :
  (0 < x)%N → starts_with_digit (pretty_N_go x s) = true.
Proof.
  revert s. induction (N.lt_wf_0 x) as [x _ IH]; intros s Hx.
  rewrite pretty_N_go_step by done.
  destruct (N.eq_0_gt_0_cases (x `div` 10)) as [-> | Hdiv].
  - rewrite pretty_N_go_0. cbn.
    rewrite digit_value_pretty by by apply N.mod_lt. done.
  - apply IH; [by apply N.div_lt | done].
Qed.

Lemma read_digits_stop acc rest :
  starts_with_digit rest = false → read_digits acc rest = (acc, rest).
Proof.
  destruct rest as [| c rest]; [done |]. cbn.
  destruct (digit_value c); [| done].
  intros Hc. by apply bool_decide_eq_false in Hc as [].
Qed.

Lemma read_int_start s :
  starts_with_digit s = true → read_int s = Some (read_digits 0 s).
Proof.
  destruct s as [| c s]; [done |]. intros Hs. unfold read_int.
  destruct (decide (c = "-"%char)) as [-> |]; [done |]. by rewrite Hs.
Qed.

(** A number can be read back from its decimal form, when no digit
    follows it. *)
Lemma read_int_pretty z rest :
  starts_with_digit rest = false →
  read_int (pretty z +:+ rest) = Some (z, rest).
Proof.
  intros Hrest. destruct z as [| p | p].
  - change (pretty 0) with "0". rewrite append_cons, append_nil.
    rewrite read_int_start by done. cbn.
    change (digit_value "0") with (Some 0). cbn.
    by rewrite read_digits_stop.
  - change (pretty (Z.pos p)) with (pretty_N_go (N.pos p) "").
    rewrite pretty_N_go_app, append_nil.
    rewrite read_int_start by by apply starts_with_digit_pretty.
    by rewrite read_digits_pretty, read_digits_stop.
  - change (pretty (Z.neg p)) with ("-" +:+ pretty_N_go (N.pos p) "").
    rewrite append_assoc, pretty_N_go_app, append_cons, !append_nil.
    unfold read_int. rewrite decide_True by done.
    rewrite starts_with_digit_pretty by done.
    by rewrite read_digits_pretty, read_digits_stop.
Qed.

Lemma read_string_plain s rest :
  plain s = true → read_string (s +:+ dq +:+ rest) = Some (s, rest).
Proof.
  induction s as [| c s IH]; [done |]. cbn [plain].
  intros [Hc Hs]%andb_prop. rewrite append_cons. cbn [read_string].
  rewrite Hc, (IH Hs).
  apply bool_decide_eq_true in Hc as [Hquote _].
  by rewrite decide_False.
Qed.

Lemma plain_app s t : plain s = true → plain t = true → plain (s +:+ t) = true.
Proof.
  induction s as [| c s IH]; [done |]. rewrite append_cons. cbn [plain].
  intros [-> Hs]%andb_prop Ht. by rewrite IH.
Qed.

Lemma plain_pretty_N_go x s : plain s = true → plain (pretty_N_go x s) = true.
Proof.
  revert s. induction (N.lt_wf_0 x) as [x _ IH]; intros s Hs.
  assert (x = 0 ∨ 0 < x)%N as [-> | Hx] by lia; [done |].
  rewrite pretty_N_go_step by done. apply IH; [by apply N.div_lt |].
  cbn. rewrite Hs, andb_true_r. unfold pretty_N_char.
  by repeat case_match.
Qed.

Lemma plain_pretty z : plain (pretty z) = true.
Proof.
  destruct z as [| p | p]; [done | |].
  - by apply plain_pretty_N_go.
  - change (pretty (Z.neg p)) with ("-" +:+ pretty_N_go (N.pos p) "").
    apply plain_app; [done | by apply plain_pretty_N_go].
Qed.

(** The frame of an event, written as the fixed texts around its three
    fields. *)
Lemma sse_frame_parts e :
  sse_frame e
  = ("data: {" +:+ dq +:+ "count" +:+ dq +:+ ": ")
    +:+ pretty (count e)
    +:+ (", " +:+ dq +:+ "message" +:+ dq +:+ ": " +:+ dq)
    +:+ message e
    +:+ dq
    +:+ (", " +:+ dq +:+ "value" +:+ dq +:+ ": ")
    +:+ pretty (value e)
    +:+ ("}" +:+ nl +:+ nl).
Proof.
  unfold sse_frame, json_dumps. by rewrite !append_assoc.
Qed.

(** Every event whose message is free of quotes and backslashes is read
    back from its frame. *)
Lemma decode_sse_frame e :
  plain (message e) = true → decode_frame (sse_frame e) = Some e.
Proof.
  intros Hplain. rewrite sse_frame_parts. unfold decode_frame.
  rewrite strip_prefix_app. cbn.
  rewrite read_int_pretty by done. cbn.
  rewrite (strip_prefix_app (", " +:+ dq +:+ "message" +:+ dq +:+ ": " +:+ dq)).
  cbn. rewrite read_string_plain by done. cbn.
  rewrite (strip_prefix_app (", " +:+ dq +:+ "value" +:+ dq +:+ ": ")).
  cbn. rewrite read_int_pretty by done. cbn.
  by destruct e.
Qed.
End decode.

(** The text [Update n] is free of quotes and backslashes. *)
Lemma plain_update (z : Z) : plain ("Update " +:+ pretty z) = true.
Proof. apply plain_app; [done | apply plain_pretty]. Qed.

(** The frames of events with messages of the form [Update n] are read
    back one by one. *)
Lemma decode_frames (events : list Event) :
  Forall (λ e, message e = "Update " +:+ pretty (count e)) events →
  decode_frame <$> (sse_frame <$> events) = Some <$> events.
Proof.
  induction 1 as [| e events He _ IH]; [done |].
  rewrite !fmap_cons, IH. f_equal.
  apply decode_sse_frame. rewrite He. apply plain_update.
Qed.

(** Two events with such messages that have the same frame are equal. *)
Lemma sse_frame_inj (e1 e2 : Event) :
  plain (message e1) = true → plain (message e2) = true →
  sse_frame e1 = sse_frame e2 → e1 = e2.
Proof.
  intros H1 H2 Hframe. apply (inj Some).
  by rewrite <- (decode_sse_frame e1 H1), <- (decode_sse_frame e2 H2), Hframe.
Qed.

Section stream_properties.
Context {Rng : Type}.
Variable randint : Z → Z → Rng → Z * Rng.

(** [random.randint(a, b)] returns an integer [N] with [a <= N <= b]. *)
Hypothesis randint_range : ∀ a b g, a ≤ b → a ≤ (randint a b g).1 ≤ b.

Implicit Types (w : World Rng) (g : Generator) (idx : list Z).

(** The rounds for the indices [idx]: the counts are the indices plus
    one, each value is in range, each message names its count, and one
    second is slept per round. *)
Lemma rounds_spec idx w :
  count <$> (rounds randint idx w).1 = Z.succ <$> idx
  ∧ Forall (λ e, 1 ≤ value e ≤ 100) (rounds randint idx w).1
  ∧ Forall (λ e, message e = "Update " +:+ pretty (count e))
      (rounds randint idx w).1
  ∧ slept (rounds randint idx w).2 = slept w + Z.of_nat (length idx).
Proof.
  revert w. induction idx as [| i idx IH]; intros w.
  { simpl. split_and!; try done. lia. }
  simpl. unfold round.
  pose proof (randint_range 1 100 (rng (sleep 1 w))) as Hrange.
  destruct (randint 1 100 (rng (sleep 1 w))) as [v r].
  specialize (IH (mkWorld r (slept (sleep 1 w)))).
  destruct (rounds randint idx _) as [ds w'']. simpl in *.
  destruct IH as (Hcount & Hvalue & Hmessage & Hslept).
  split_and!.
  - replace (Z.succ i) with (i + 1) by lia. f_equal. exact Hcount.
  - constructor; [simpl; lia | done].
  - by constructor.
  - lia.
Qed.

(** With more calls of [next()] allowed than indices are pending, the
    server reaches [StopIteration] and has sent the frames of the pending
    rounds. *)
Lemma consume_rounds (fuel : nat) g w :
  (length (pending g) < fuel)%nat →
  consume randint fuel g w
  = (Some (sse_frame <$> (rounds randint (pending g) w).1),
     (rounds randint (pending g) w).2).
Proof.
  revert g w. induction fuel as [| fuel IH]; intros [idx] w Hfuel;
    [simpl in Hfuel; lia |].
  destruct idx as [| i idx]; [done |].
  simpl in *. unfold gen_next. simpl.
  destruct (round randint i w) as [data w'].
  rewrite (IH (mkGenerator idx) w') by (simpl; lia). simpl.
  by destruct (rounds randint idx w') as [ds w''].
Qed.

(** With no more calls allowed than indices are pending, the server has
    not reached the end of the stream. *)
Lemma consume_short (fuel : nat) g w :
  (fuel ≤ length (pending g))%nat → (consume randint fuel g w).1 = None.
Proof.
  revert g w. induction fuel as [| fuel IH]; intros [idx] w Hfuel; [done |].
  destruct idx as [| i idx]; [simpl in Hfuel; lia |].
  simpl in *. unfold gen_next. simpl.
  destruct (round randint i w) as [data w'].
  specialize (IH (mkGenerator idx) w').
  destruct (consume randint fuel (mkGenerator idx) w') as [frames w''].
  simpl in *. rewrite IH by lia. done.
Qed.

(** C1.  Whatever the state of the random module when the stream is
    started, the server reaches the end of the generator within eleven
    calls of [next()], ten that yield and one that stops, and has then
    sent exactly ten frames.  Each frame reads back as the data it was
    built from: the counts read out of the ten frames are 1 to 10 in this
    order, each value read out is between 1 and 100, and ten seconds were
    slept.  With ten calls or fewer the end is not reached.  A stream
    started afterwards, in the world the first one left, sends frames
    whose counts again read 1 to 10. *)
Theorem sse_stream_ten_events w (fuel : nat) :
  (10 < fuel)%nat →
  ∃ events w',
    consume randint fuel (stream sse_stream) w
    = (Some (sse_frame <$> events), w')
    ∧ decode_frame <$> (sse_frame <$> events) = Some <$> events
    ∧ length events = 10%nat
    ∧ count <$> events = [1; 2; 3; 4; 5; 6; 7; 8; 9; 10]
    ∧ Forall (λ e, 1 ≤ value e ≤ 100) events
    ∧ Forall (λ e, message e = "Update " +:+ pretty (count e)) events
    ∧ slept w' = slept w + 10
    ∧ (consume randint 10 (stream sse_stream) w).1 = None
    ∧ ∃ events' w'',
        consume randint fuel (stream sse_stream) w'
        = (Some (sse_frame <$> events'), w'')
        ∧ decode_frame <$> (sse_frame <$> events') = Some <$> events'
        ∧ count <$> events' = [1; 2; 3; 4; 5; 6; 7; 8; 9; 10].
Proof.
  intros Hfuel.
  assert (∀ w0, ∃ events w',
    consume randint fuel (stream sse_stream) w0
    = (Some (sse_frame <$> events), w')
    ∧ decode_frame <$> (sse_frame <$> events) = Some <$> events
    ∧ count <$> events = [1; 2; 3; 4; 5; 6; 7; 8; 9; 10]
    ∧ Forall (λ e, 1 ≤ value e ≤ 100) events
    ∧ Forall (λ e, message e = "Update " +:+ pretty (count e)) events
    ∧ slept w' = slept w0 + 10) as Hrun.
  { intros w0.
    exists (rounds randint (pending generate) w0).1,
           (rounds randint (pending generate) w0).2.
    destruct (rounds_spec (pending generate) w0)
      as (Hcount & Hvalue & Hmessage & Hslept).
    split_and!; try done.
    - by apply consume_rounds.
    - by apply decode_frames. }
  destruct (Hrun w) as (events & w' & Hconsume & Hdecode & Hcount & Hrest).
  destruct (Hrun w')
    as (events' & w'' & Hconsume' & Hdecode' & Hcount' & _).
  exists events, w'. split_and!; try tauto.
  - by rewrite <- (length_fmap count), Hcount.
  - by apply consume_short.
  - by exists events', w''.
Qed.
End stream_properties.

Lemma sse_stream_ten_events_witness :
  ∃ events w',
    consume lcg_randint 11 (stream sse_stream) (mkWorld 42 0)
    = (Some (sse_frame <$> events), w')
    ∧ decode_frame <$> (sse_frame <$> events) = Some <$> events
    ∧ length events = 10%nat
    ∧ count <$> events = [1; 2; 3; 4; 5; 6; 7; 8; 9; 10]
    ∧ Forall (λ e, 1 ≤ value e ≤ 100) events
    ∧ Forall (λ e, message e = "Update " +:+ pretty (count e)) events
    ∧ slept w' = slept (mkWorld 42 0) + 10
    ∧ (consume lcg_randint 10 (stream sse_stream) (mkWorld 42 0)).1 = None
    ∧ ∃ events' w'',
        consume lcg_randint 11 (stream sse_stream) w'
        = (Some (sse_frame <$> events'), w'')
        ∧ decode_frame <$> (sse_frame <$> events') = Some <$> events'
        ∧ count <$> events' = [1; 2; 3; 4; 5; 6; 7; 8; 9; 10].
Proof.
  apply (sse_stream_ten_events lcg_randint lcg_randint_range (mkWorld 42 0) 11).
  lia.
Defined.

(** * Further properties of the task store *)

(** ** The ids of a reachable store *)

Section ids.
Implicit Types (r : Request) (rs : list Request) (s : Store).

Lemma ids_insert_same (ts : list Task) (i : nat) (t t' : Task) :
  ts !! i = Some t → Task.id t' = Task.id t →
  Task.id <$> <[i := t']> ts = Task.id <$> ts.
Proof.
  intros Hi Hid. rewrite list_fmap_insert, Hid.
  apply list_insert_id. by rewrite list_lookup_fmap, Hi.
Qed.

Lemma ids_filter (d : Z) (ts : list Task) :
  Task.id <$> filter (λ t, Task.id t ≠ d) ts
  = filter (λ i, i ≠ d) (Task.id <$> ts).
Proof.
  induction ts as [| t ts IH]; [done |].
  rewrite fmap_cons, !filter_cons.
  destruct (decide (Task.id t ≠ d)); by rewrite ?fmap_cons, IH.
Qed.

Lemma sorted_filter (P : Z → Prop) `{!∀ x, Decision (P x)} (l : list Z) :
  StronglySorted Z.lt l → StronglySorted Z.lt (filter P l).
Proof.
  induction 1 as [| x l Hl IH Hx]; [constructor |].
  rewrite filter_cons. destruct (decide (P x)); [| done].
  constructor; [done | by apply Forall_kept].
Qed.

(** How each request changes the list of ids. *)
Lemma handle_ids r s :
  ids (handle r s).2 = ids s
  ∨ ids (handle r s).2 = ids s ++ [next_task_id s]
  ∨ ∃ d, ids (handle r s).2 = filter (λ i, i ≠ d) (ids s).
Proof.
  unfold ids.
  destruct r as [args | form | task_id | task_id | task_id form | task_id];
    simpl; try (by left).
  - unfold create_task. destruct (truthy (form !! "title")); [| by left].
    right; left. simpl. by rewrite fmap_app.
  - left. unfold toggle_task.
    destruct (find_task _ _) as [[i t] |] eqn:Hfind; [| done]. simpl.
    apply list_find_Some in Hfind as (Hi & _ & _).
    by apply (ids_insert_same _ _ t).
  - left. unfold update_task.
    destruct (find_task _ _) as [[i t] |] eqn:Hfind; [| done].
    destruct (truthy (form !! "title")); [| done]. simpl.
    apply list_find_Some in Hfind as (Hi & _ & _).
    by apply (ids_insert_same _ _ t).
  - right; right. exists task_id. apply ids_filter.
Qed.

Lemma handle_sorted r s :
  bounded s → StronglySorted Z.lt (ids s) →
  StronglySorted Z.lt (ids (handle r s).2).
Proof.
  intros Hbound Hsorted.
  destruct (handle_ids r s) as [-> | [-> | [d ->]]]; [done | |].
  - apply StronglySorted_app_2; [| done | repeat constructor].
    intros x y (t & -> & Ht)%list_elem_of_fmap ->%list_elem_of_singleton.
    unfold bounded in Hbound. rewrite Forall_forall in Hbound.
    by apply Hbound.
  - by apply sorted_filter.
Qed.

Lemma run_sorted rs s :
  bounded s → StronglySorted Z.lt (ids s) →
  StronglySorted Z.lt (ids (run rs s)).
Proof.
  revert s. induction rs as [| r rs IH]; intros s Hbound Hsorted; [done |].
  simpl. apply IH; [by apply handle_bounded | by apply handle_sorted].
Qed.

Lemma sorted_NoDup (l : list Z) : StronglySorted Z.lt l → NoDup l.
Proof.
  induction 1 as [| x l Hl IH Hx]; constructor; [| done].
  intros Hin. rewrite Forall_forall in Hx. specialize (Hx x Hin). lia.
Qed.
End ids.

(** X1.  In every store that a run of requests reaches from the seeded
    store, the ids of the tasks are strictly increasing in the order of the
    list, so no two tasks share an id, and every id is at least 1 and
    below [next_task_id]. *)
Theorem reachable_ids_increasing (rs : list Request) :
  StronglySorted Z.lt (ids (run rs initial_store))
  ∧ NoDup (ids (run rs initial_store))
  ∧ Forall (λ i, 1 ≤ i < next_task_id (run rs initial_store))
      (ids (run rs initial_store)).
Proof.
  assert (StronglySorted Z.lt (ids (run rs initial_store))) as Hsorted.
  { apply run_sorted; [apply initial_store_bounded |].
    unfold ids. simpl. repeat constructor. }
  split_and!; [done | by apply sorted_NoDup |].
  pose proof (run_bounded rs _ initial_store_bounded) as Hbound.
  assert (Forall (λ i, 1 ≤ i) (ids (run rs initial_store))) as Hlow.
  { clear Hsorted Hbound.
    assert (Forall (λ i, 1 ≤ i) (ids initial_store)) as Hinit
      by by_evaluation.
    assert (1 ≤ next_task_id initial_store) as Hnext by done.
    revert Hinit Hnext. generalize initial_store.
    induction rs as [| r rs IH]; intros s Hs Hnext; [done |].
    simpl. apply IH.
    - destruct (handle_ids r s) as [-> | [-> | [d ->]]]; [done | |].
      + apply Forall_app. split; [done |]. by apply Forall_singleton.
      + by apply Forall_kept.
    - pose proof (handle_created_id r s) as Hc.
      destruct (created_id r (handle r s).1); lia. }
  unfold bounded in Hbound. unfold ids in *.
  rewrite Forall_fmap in Hlow. rewrite Forall_fmap.
  rewrite Forall_forall in Hlow, Hbound |- *.
  intros t Ht. specialize (Hlow t Ht). specialize (Hbound t Ht).
  simpl in *. lia.
Qed.

(** ** Reading a task *)

(** X2.  The three handlers that read one task agree.  With no task of the
    id each answers 404.  Otherwise each answers 200 and renders, under its
    own template, the first task of the list that has the id. *)
Theorem read_handlers_agree (task_id : Z) (s : Store) :
  (task_id ∉ ids s →
     get_task task_id s = task_not_found
     ∧ edit_task_form task_id s = task_not_found
     ∧ delete_task_confirm task_id s = task_not_found)
  ∧ (task_id ∈ ids s →
     ∃ pre t post,
       tasks s = pre ++ t :: post
       ∧ Task.id t = task_id
       ∧ (task_id ∉ Task.id <$> pre)
       ∧ get_task task_id s
         = ok (Rendered "partials/task_item.html" (CtxTask t))
       ∧ edit_task_form task_id s
         = ok (Rendered "partials/task_edit.html" (CtxTask t))
       ∧ delete_task_confirm task_id s
         = ok (Rendered "partials/task_delete_confirm.html" (CtxTask t))).
Proof.
  split.
  - intros Hin%find_task_None.
    unfold get_task, edit_task_form, delete_task_confirm. by rewrite Hin.
  - intros (pre & t & post & Hs & Hid & Hpre)%ids_split.
    exists pre, t, post.
    unfold get_task, edit_task_form, delete_task_confirm.
    by rewrite Hs, (find_task_middle task_id pre t post Hid Hpre).
Qed.

Lemma read_handlers_agree_witness :
  (get_task 7 initial_store = task_not_found
   ∧ edit_task_form 7 initial_store = task_not_found
   ∧ delete_task_confirm 7 initial_store = task_not_found)
  ∧ ∃ pre t post,
      tasks initial_store = pre ++ t :: post
      ∧ Task.id t = 3
      ∧ (3 ∉ Task.id <$> pre)
      ∧ get_task 3 initial_store
        = ok (Rendered "partials/task_item.html" (CtxTask t))
      ∧ edit_task_form 3 initial_store
        = ok (Rendered "partials/task_edit.html" (CtxTask t))
      ∧ delete_task_confirm 3 initial_store
        = ok (Rendered "partials/task_delete_confirm.html" (CtxTask t)).
Proof.
  split.
  - apply (proj1 (read_handlers_agree 7 initial_store)). by_evaluation.
  - apply (proj2 (read_handlers_agree 3 initial_store)). by_evaluation.
Defined.

(** [get_task] on a store whose first task with the id is [t]. *)
Lemma get_task_middle (task_id : Z) (s : Store) pre t post :
  tasks s = pre ++ t :: post →
  Task.id t = task_id →
  task_id ∉ Task.id <$> pre →
  get_task task_id s = ok (Rendered "partials/task_item.html" (CtxTask t)).
Proof.
  intros Hs Hid Hpre. unfold get_task.
  by rewrite Hs, (find_task_middle task_id pre t post Hid Hpre).
Qed.

(** X3.  In a store reached from the seeded store, a create that succeeds
    can be read back: [get_task] with the id that was handed out answers
    exactly what the create answered, the rendered new task. *)
Theorem create_task_then_get (rs : list Request) (form : Form) :
  truthy (form !! "title") = true →
  created_ids [CreateTask form] (run rs initial_store)
  = [next_task_id (run rs initial_store)]
  ∧ status (create_task form (run rs initial_store)).1 = 200
  ∧ get_task (next_task_id (run rs initial_store))
      (create_task form (run rs initial_store)).2
    = (create_task form (run rs initial_store)).1.
Proof.
  intros Htitle. split; [by apply create_task_with_title |].
  pose proof (run_bounded rs _ initial_store_bounded) as Hbound.
  set (s := run rs initial_store) in *.
  unfold create_task. rewrite Htitle. simpl. split; [done |].
  eapply get_task_middle; [done | done |].
  intros (t & Ht & Hin)%list_elem_of_fmap.
  unfold bounded in Hbound. rewrite Forall_forall in Hbound.
  specialize (Hbound t Hin). lia.
Qed.

Lemma create_task_then_get_witness :
  created_ids [CreateTask {[ "title" := "Write spec" ]}]
    (run [DeleteTask 2] initial_store)
  = [next_task_id (run [DeleteTask 2] initial_store)]
  ∧ status (create_task {[ "title" := "Write spec" ]}
              (run [DeleteTask 2] initial_store)).1 = 200
  ∧ get_task (next_task_id (run [DeleteTask 2] initial_store))
      (create_task {[ "title" := "Write spec" ]}
         (run [DeleteTask 2] initial_store)).2
    = (create_task {[ "title" := "Write spec" ]}
         (run [DeleteTask 2] initial_store)).1.
Proof.
  apply (create_task_then_get [DeleteTask 2] {[ "title" := "Write spec" ]}).
  vm_compute. reflexivity.
Defined.

(** X4.  What [toggle_task] and a successful [update_task] answer is what
    the store shows afterwards: [get_task] with the same id, on the store
    they return, gives the same response. *)
Theorem toggle_update_then_get (task_id : Z) (form : Form) (s : Store) :
  task_id ∈ ids s →
  get_task task_id (toggle_task task_id s).2 = (toggle_task task_id s).1
  ∧ (truthy (form !! "title") = true →
     status (update_task task_id form s).1 = 200
     ∧ get_task task_id (update_task task_id form s).2
       = (update_task task_id form s).1).
Proof.
  intros (pre & t & post & Hs & Hid & Hpre)%ids_split. split.
  - rewrite (toggle_task_middle task_id s pre t post Hs Hid Hpre). simpl.
    by eapply get_task_middle.
  - intros (title & Htitle & Hne)%truthy_Some.
    rewrite (update_task_middle _ _ _ title pre t post Hs Hid Hpre Htitle Hne).
    simpl. split; [done |]. by eapply get_task_middle.
Qed.

Lemma toggle_update_then_get_witness :
  status (update_task 2 {[ "title" := "Ship it" ]} initial_store).1 = 200
  ∧ get_task 2 (update_task 2 {[ "title" := "Ship it" ]} initial_store).2
    = (update_task 2 {[ "title" := "Ship it" ]} initial_store).1.
Proof.
  apply (proj2 (toggle_update_then_get 2 {[ "title" := "Ship it" ]}
                  initial_store ltac:(by_evaluation))).
  vm_compute. reflexivity.
Defined.

(** ** Deleting and reading *)

Lemma snd_shift {A} (o : option (nat * A)) :
  snd <$> (prod_map S id <$> o) = snd <$> o.
Proof. by destruct o as [[i x] |]. Qed.

Lemma find_task_filter (d task_id : Z) (ts : list Task) :
  task_id ≠ d →
  snd <$> find_task task_id (filter (λ t, Task.id t ≠ d) ts)
  = snd <$> find_task task_id ts.
Proof.
  intros Hne. unfold find_task. induction ts as [| t ts IH]; [done |].
  rewrite filter_cons.
  destruct (decide (Task.id t ≠ d)) as [Hkeep | Hdrop]; simpl.
  - destruct (decide (Task.id t = task_id)); [done |].
    by rewrite !snd_shift.
  - destruct (decide (Task.id t = task_id)) as [Heq |].
    { exfalso. apply Hdrop. congruence. }
    by rewrite snd_shift.
Qed.

Lemma get_task_find (task_id : Z) (s : Store) :
  get_task task_id s
  = match snd <$> find_task task_id (tasks s) with
    | None => task_not_found
    | Some task => ok (Rendered "partials/task_item.html" (CtxTask task))
    end.
Proof. unfold get_task. by destruct (find_task _ _) as [[i t] |]. Qed.

(** X5.  After [delete_task] the id that was deleted reads as 404, and
    every other id reads as it did before. *)
Theorem delete_task_then_get (d task_id : Z) (s : Store) :
  get_task d (delete_task d s).2 = task_not_found
  ∧ (task_id ≠ d →
     get_task task_id (delete_task d s).2 = get_task task_id s).
Proof.
  split.
  - assert (find_task d (tasks (delete_task d s).2) = None) as Hgone.
    { apply find_task_None. simpl.
      intros (t & -> & [Hne _]%list_elem_of_filter)%list_elem_of_fmap.
      done. }
    unfold get_task. by rewrite Hgone.
  - intros Hne. rewrite !get_task_find. simpl.
    by rewrite find_task_filter.
Qed.

Lemma delete_task_then_get_witness :
  get_task 3 (delete_task 2 initial_store).2 = get_task 3 initial_store.
Proof. apply (proj2 (delete_task_then_get 2 3 initial_store)). lia. Defined.

(** X6.  Two deletes give the same response and the same store in either
    order, and a delete returns a subsequence of the tasks it was given. *)
Theorem delete_task_commutes (a b : Z) (s : Store) :
  delete_task a (delete_task b s).2 = delete_task b (delete_task a s).2
  ∧ tasks (delete_task a s).2 `sublist_of` tasks s.
Proof.
  split; [| apply sublist_filter].
  unfold delete_task. simpl. do 2 f_equal.
  rewrite !list_filter_filter. apply list_filter_iff. tauto.
Qed.

(** ** Updating twice *)

(** X7.  [update_task] is idempotent: sending the same form for the same
    id a second time gives the same response and leaves the store as the
    first update left it, whether the update succeeds or not. *)
Theorem update_task_idempotent (task_id : Z) (form : Form) (s : Store) :
  update_task task_id form (update_task task_id form s).2
  = update_task task_id form s.
Proof.
  destruct (find_task task_id (tasks s)) as [[i t] |] eqn:Hfind.
  - destruct (truthy (form !! "title")) eqn:Htitle.
    + apply find_task_split in Hfind as (Hs & _ & Hid & Hpre).
      apply truthy_Some in Htitle as (title & Htitle & Hne).
      rewrite (update_task_middle _ _ _ title _ t _ Hs Hid Hpre Htitle Hne).
      cbn [snd].
      set (t' := Task.mk (Task.id t) title (Task.completed t)
                         (form !! "priority")).
      set (pre := take i (tasks s)) in *.
      set (post := drop (S i) (tasks s)) in *.
      by rewrite (update_task_middle task_id form
                    (mkStore (pre ++ t' :: post) (next_task_id s))
                    title pre t' post eq_refl Hid Hpre Htitle Hne).
    + assert (update_task task_id form s = (title_required, s)) as Hu.
      { unfold update_task. by rewrite Hfind, Htitle. }
      by rewrite Hu.
  - assert (update_task task_id form s = (task_not_found, s)) as Hu.
    { unfold update_task. by rewrite Hfind. }
    by rewrite Hu.
Qed.

(** ** Listings *)

(** X8.  The active and the completed listing together hold every task of
    the store exactly as often as the store does: their concatenation is a
    permutation of the store's list, and their lengths add up to its
    length. *)
Theorem listed_permutation (s : Store) :
  listed "completed" s ++ listed "active" s ≡ₚ listed "all" s
  ∧ (length (listed "completed" s) + length (listed "active" s))%nat
    = length (tasks s).
Proof.
  assert (listed "completed" s ++ listed "active" s ≡ₚ tasks s) as Hperm.
  { change (listed "completed" s)
      with (filter (λ t, Task.completed t = true) (tasks s)).
    change (listed "active" s)
      with (filter (λ t, Task.completed t = false) (tasks s)).
    rewrite <- (filter_app_complement (λ t, Task.completed t = true) (tasks s))
      at 3.
    f_equiv. apply reflexive_eq, list_filter_iff.
    intros t. by destruct (Task.completed t). }
  split; [done |]. by rewrite <- length_app, Hperm.
Qed.

Lemma filter_unique_id (P : Task → Prop) `{!∀ t, Decision (P t)}
    (task_id : Z) pre t post :
  Task.id t = task_id →
  task_id ∉ Task.id <$> pre →
  task_id ∉ Task.id <$> post →
  task_id ∈ Task.id <$> filter P (pre ++ t :: post) ↔ P t.
Proof.
  intros Hid Hpre Hpost. rewrite list_elem_of_fmap. split.
  - intros (u & Hu & [HP Hin]%list_elem_of_filter).
    apply elem_of_app in Hin as [Hin | Hin].
    { exfalso. apply Hpre, list_elem_of_fmap. by exists u. }
    apply elem_of_cons in Hin as [-> | Hin]; [done |].
    exfalso. apply Hpost, list_elem_of_fmap. by exists u.
  - intros HP. exists t. split; [done |].
    apply list_elem_of_filter. split; [done |].
    apply elem_of_app. right. by left.
Qed.

(** X9.  In a store reached from the seeded store, toggling a task moves
    it from one listing to the other: when the task with the id shows the
    flag [b], then after [toggle_task] the id is listed as completed
    exactly if [b] was false, and as active exactly if [b] was true. *)
Theorem toggle_task_moves (rs : list Request) (task_id : Z) (b : bool) :
  completed_of task_id (run rs initial_store) = Some b →
  (task_id ∈ Task.id
     <$> listed "completed" (toggle_task task_id (run rs initial_store)).2
   ↔ b = false)
  ∧ (task_id ∈ Task.id
       <$> listed "active" (toggle_task task_id (run rs initial_store)).2
     ↔ b = true).
Proof.
  assert (NoDup (ids (run rs initial_store))) as Hnodup.
  { apply sorted_NoDup, run_sorted; [apply initial_store_bounded |].
    unfold ids. simpl. repeat constructor. }
  set (s := run rs initial_store) in *.
  unfold completed_of. intros Hb.
  destruct (find_task task_id (tasks s)) as [[i t] |] eqn:Hfind; [| done].
  injection Hb as Hb. simpl in Hb.
  apply find_task_split in Hfind as (Hs & _ & Hid & Hpre).
  assert (task_id ∉ Task.id <$> drop (S i) (tasks s)) as Hpost.
  { unfold ids in Hnodup. rewrite Hs, fmap_app, fmap_cons in Hnodup.
    apply NoDup_app in Hnodup as (_ & _ & Hnodup).
    apply NoDup_cons in Hnodup as [Hnot _]. by rewrite Hid in Hnot. }
  rewrite (toggle_task_middle task_id s _ t _ Hs Hid Hpre).
  change (listed "completed" ?s')
    with (filter (λ t, Task.completed t = true) (tasks s')).
  change (listed "active" ?s')
    with (filter (λ t, Task.completed t = false) (tasks s')).
  simpl. rewrite !filter_unique_id by done. simpl. rewrite Hb.
  destruct b; simpl; intuition congruence.
Qed.

Lemma toggle_task_moves_witness :
  (2 ∈ Task.id
     <$> listed "completed"
           (toggle_task 2 (run [ToggleTask 1] initial_store)).2
   ↔ false = false)
  ∧ (2 ∈ Task.id
       <$> listed "active"
             (toggle_task 2 (run [ToggleTask 1] initial_store)).2
     ↔ false = true).
Proof.
  apply (toggle_task_moves [ToggleTask 1] 2 false).
  vm_compute. reflexivity.
Defined.

(** ** Requests that fail *)

(** X16.  Every request to the task store is answered with 200, 400 or
    404, and a request that is not answered with 200 returns the store
    exactly as it was: a handler that refuses a request has changed
    nothing. *)
Theorem failed_request_keeps_store (r : Request) (s : Store) :
  (status (handle r s).1 = 200
   ∨ status (handle r s).1 = 400
   ∨ status (handle r s).1 = 404)
  ∧ (status (handle r s).1 ≠ 200 → (handle r s).2 = s).
Proof.
  destruct r as [args | form | task_id | task_id | task_id form | task_id];
    simpl.
  - split; [by left | done].
  - unfold create_task. destruct (truthy (form !! "title")); simpl.
    + split; [by left | done].
    + split; [right; by left | done].
  - split; [| done]. unfold get_task.
    destruct (find_task _ _) as [[i t] |]; [by left | right; by right].
  - unfold toggle_task. destruct (find_task _ _) as [[i t] |]; simpl.
    + split; [by left | done].
    + split; [right; by right | done].
  - unfold update_task. destruct (find_task _ _) as [[i t] |]; simpl.
    + destruct (truthy (form !! "title")); simpl.
      * split; [by left | done].
      * split; [right; by left | done].
    + split; [right; by right | done].
  - split; [by left | done].
Qed.

Lemma failed_request_keeps_store_witness :
  (handle (UpdateTask 2 {[ "priority" := "low" ]}) initial_store).2
  = initial_store.
Proof.
  apply (proj2 (failed_request_keeps_store
                  (UpdateTask 2 {[ "priority" := "low" ]}) initial_store)).
  vm_compute. discriminate.
Defined.

(** * Further properties of the event stream *)

Lemma take_seqZ (n k : nat) (m : Z) :
  take n (seqZ m (Z.of_nat k)) = seqZ m (Z.of_nat (n `min` k)).
Proof. unfold seqZ. by rewrite <- fmap_take, !Nat2Z.id, take_seq. Qed.

(** The counts of the first [n] rounds of [range(10)]. *)
Lemma succ_take_range (n : nat) :
  Z.succ <$> take n (seqZ 0 10) = seqZ 1 (Z.of_nat (n `min` 10)).
Proof.
  change 10 with (Z.of_nat 10). rewrite take_seqZ.
  rewrite <- (fmap_add_seqZ 1 0). apply list_fmap_ext. intros; lia.
Qed.

Section streams_properties.
Context {Rng : Type}.
Variable randint : Z → Z → Rng → Z * Rng.

Implicit Types (w : World Rng) (idx : list Z).

Lemma rounds_counts idx w :
  count <$> (rounds randint idx w).1 = Z.succ <$> idx
  ∧ slept (rounds randint idx w).2 = slept w + Z.of_nat (length idx)
  ∧ Forall (λ e, message e = "Update " +:+ pretty (count e))
      (rounds randint idx w).1.
Proof.
  revert w. induction idx as [| i idx IH]; intros w.
  { simpl. split_and!; [done | lia | done]. }
  simpl. unfold round.
  destruct (randint 1 100 (rng (sleep 1 w))) as [v r].
  specialize (IH (mkWorld r (slept (sleep 1 w)))).
  destruct (rounds randint idx _) as [ds w'']. simpl in *.
  destruct IH as (Hcount & Hslept & Hmessage). split_and!; [| lia |].
  - replace (Z.succ i) with (i + 1) by lia. f_equal. exact Hcount.
  - by constructor.
Qed.

(** [n] calls of [next()] run the first [n] pending rounds, or all of them
    when fewer are pending. *)
Lemma pull_rounds (n : nat) idx w :
  pull randint n (mkGenerator idx) w
  = (sse_frame <$> (rounds randint (take n idx) w).1,
     mkGenerator (drop n idx),
     (rounds randint (take n idx) w).2).
Proof.
  revert idx w. induction n as [| n IH]; intros idx w; [done |].
  destruct idx as [| i idx]; [done |].
  simpl. unfold gen_next. simpl.
  destruct (round randint i w) as [data w'].
  rewrite IH. simpl.
  by destruct (rounds randint (take n idx) w') as [ds w''].
Qed.

(** X10.  A client that calls [next()] [n] times on a new stream, and may
    stop there, has received frames that read back as the counts 1 to
    [n], or 1 to 10 when [n] is more than 10: there is no eleventh event.
    One second was slept for each frame received and for nothing else, and
    the generator has as many rounds left as are missing to ten. *)
Theorem pull_counts (n : nat) w :
  ∃ events,
    (pull randint n (stream sse_stream) w).1.1 = sse_frame <$> events
    ∧ decode_frame <$> (pull randint n (stream sse_stream) w).1.1
      = Some <$> events
    ∧ count <$> events = seqZ 1 (Z.of_nat (n `min` 10))
    ∧ length (pull randint n (stream sse_stream) w).1.1 = (n `min` 10)%nat
    ∧ length events = (n `min` 10)%nat
    ∧ slept (pull randint n (stream sse_stream) w).2
      = slept w + Z.of_nat (n `min` 10)
    ∧ length (pending (pull randint n (stream sse_stream) w).1.2)
      = (10 - n)%nat.
Proof.
  exists (rounds randint (take n (seqZ 0 10)) w).1.
  change (stream sse_stream) with (mkGenerator (seqZ 0 10)).
  rewrite pull_rounds. simpl.
  destruct (rounds_counts (take n (seqZ 0 10)) w)
    as (Hcount & Hslept & Hmessage).
  assert (length (take n (seqZ 0 10)) = (n `min` 10)%nat) as Hlen.
  { by rewrite length_take, length_seqZ. }
  assert (length (rounds randint (take n (seqZ 0 10)) w).1
          = (n `min` 10)%nat) as Hevents.
  { by rewrite <- (length_fmap count), Hcount, length_fmap. }
  split_and!; [done | | | | done | |].
  - by apply decode_frames.
  - by rewrite Hcount, succ_take_range.
  - by rewrite length_fmap.
  - by rewrite Hslept, Hlen.
  - by rewrite length_drop, length_seqZ.
Qed.
End streams_properties.

(** * Properties of the pages of users *)

Lemma length_users : length users = 50%nat.
Proof. reflexivity. Qed.

Lemma users_ids : User.id <$> users = seqZ 1 50.
Proof. reflexivity. Qed.

(** A slice between two bounds that are not negative is a [drop] followed
    by a [take], also when a bound lies past the end of the list. *)
Lemma slice_nonneg {A} (a b : Z) (l : list A) :
  0 ≤ a → a ≤ b →
  slice a b l = take (Z.to_nat (b - a)) (drop (Z.to_nat a) l).
Proof.
  intros Ha Hab. unfold slice, slice_bound.
  repeat case_decide; try lia.
  - rewrite !(drop_ge l) by lia. by rewrite !take_nil.
  - rewrite !take_ge; [done | |]; rewrite length_drop; lia.
  - done.
Qed.

Section pagination_properties.
Variable int : string → option Z.

(** X12.  Asked for the pages 1 to 5, by whatever query strings [int]
    reads as these numbers, the handler lists ten users each time, and the
    five lists one after the other are exactly [users]: every user is
    listed once, in order.  Each answer names the next page, and only the
    fifth says that no more users follow. *)
Theorem users_pages_cover (request : Z → Form) :
  (∀ p, 1 ≤ p ≤ 5 → requested_page int (request p) = Some p) →
  ∃ ups,
    mapM (λ p, infinite_scroll_users int (request p)) (seqZ 1 5) = Some ups
    ∧ concat (page_users <$> ups) = users
    ∧ length <$> (page_users <$> ups) = [10; 10; 10; 10; 10]%nat
    ∧ page <$> ups = [2; 3; 4; 5; 6]
    ∧ has_more <$> ups = [true; true; true; true; false].
Proof.
  intros Hrequest.
  assert (∀ p, 1 ≤ p ≤ 5 →
    infinite_scroll_users int (request p)
    = Some (mkUserPage (slice ((p - 1) * 10) ((p - 1) * 10 + 10) users)
              (p + 1) (bool_decide ((p - 1) * 10 + 10 < 50)))) as Hpage.
  { intros p Hp. unfold infinite_scroll_users. by rewrite (Hrequest p Hp). }
  exists ((λ p, mkUserPage (slice ((p - 1) * 10) ((p - 1) * 10 + 10) users)
                  (p + 1) (bool_decide ((p - 1) * 10 + 10 < 50)))
          <$> seqZ 1 5).
  split; [| by vm_compute].
  change (seqZ 1 5) with [1; 2; 3; 4; 5]. simpl.
  rewrite !Hpage by lia. reflexivity.
Qed.

(** X13.  For a page number [p] of 1 or more the handler lists the ten
    users after the first [10 * (p - 1)], fewer or none where [users]
    ends: the users with the ids [10 * p - 9] to [10 * p] for the pages 1
    to 5 and no user from page 6 on.  It names [p + 1] as the next page
    and says that more users follow exactly when [p] is below 5. *)
Theorem users_page_from_one (args : Form) (p : Z) :
  requested_page int args = Some p → 1 ≤ p →
  ∃ up,
    infinite_scroll_users int args = Some up
    ∧ page_users up = take 10 (drop (Z.to_nat (10 * (p - 1))) users)
    ∧ (p ≤ 5 → User.id <$> page_users up = seqZ (10 * p - 9) 10)
    ∧ (6 ≤ p → page_users up = [])
    ∧ page up = p + 1
    ∧ has_more up = bool_decide (p < 5).
Proof.
  intros Hargs Hp. unfold infinite_scroll_users. rewrite Hargs.
  eexists. split; [done |]. cbn [page_users page has_more].
  assert (slice ((p - 1) * 10) ((p - 1) * 10 + 10) users
          = take 10 (drop (Z.to_nat (10 * (p - 1))) users)) as ->.
  { rewrite slice_nonneg by lia.
    by replace ((p - 1) * 10 + 10 - (p - 1) * 10) with 10 by lia;
       replace ((p - 1) * 10) with (10 * (p - 1)) by lia. }
  split_and!; [done | | | done |].
  - intros Hle.
    assert (p = 1 ∨ p = 2 ∨ p = 3 ∨ p = 4 ∨ p = 5) as Hcases by lia.
    destruct Hcases as [-> | [-> | [-> | [-> | ->]]]]; reflexivity.
  - intros Hge. rewrite drop_ge; [done |]. rewrite length_users. lia.
  - rewrite length_users. apply bool_decide_ext. lia.
Qed.

(** X14.  A page number of 0 or less is not refused.  The bounds of the
    slice are then negative and count from the end of [users]: the pages
    -4 to -1 list the users of the pages 1 to 4, page 0 and the pages
    below -4 list no user.  All of them say that more users follow and
    name [p + 1] as the next page. *)
Theorem users_page_below_one (args : Form) (p : Z) :
  requested_page int args = Some p → p ≤ 0 →
  ∃ up,
    infinite_scroll_users int args = Some up
    ∧ (-4 ≤ p ≤ -1 →
       User.id <$> page_users up = seqZ (10 * (p + 5) - 9) 10)
    ∧ (p = 0 ∨ p ≤ -5 → page_users up = [])
    ∧ page up = p + 1
    ∧ has_more up = true.
Proof.
  intros Hargs Hp. unfold infinite_scroll_users. rewrite Hargs.
  eexists. split; [done |]. cbn [page_users page has_more].
  split_and!; [| | done |].
  - intros Hrange.
    assert (p = -4 ∨ p = -3 ∨ p = -2 ∨ p = -1) as Hcases by lia.
    destruct Hcases as [-> | [-> | [-> | ->]]]; reflexivity.
  - intros Hout. unfold slice, slice_bound. rewrite length_users.
    repeat case_decide; try lia; try apply take_0.
    all: replace (Z.to_nat _) with 0%nat by lia; apply take_0.
  - rewrite length_users. apply bool_decide_eq_true. lia.
Qed.
End pagination_properties.

Lemma decimal_int_pages (p : Z) :
  1 ≤ p ≤ 5 →
  requested_page decimal_int {[ "page" := pretty p ]} = Some p.
Proof.
  intros Hp.
  assert (p = 1 ∨ p = 2 ∨ p = 3 ∨ p = 4 ∨ p = 5) as Hcases by lia.
  destruct Hcases as [-> | [-> | [-> | [-> | ->]]]]; vm_compute; reflexivity.
Qed.

Lemma users_pages_cover_witness :
  ∃ ups,
    mapM (λ p, infinite_scroll_users decimal_int {[ "page" := pretty p ]})
      (seqZ 1 5) = Some ups
    ∧ concat (page_users <$> ups) = users
    ∧ length <$> (page_users <$> ups) = [10; 10; 10; 10; 10]%nat
    ∧ page <$> ups = [2; 3; 4; 5; 6]
    ∧ has_more <$> ups = [true; true; true; true; false].
Proof.
  apply (users_pages_cover decimal_int (λ p, {[ "page" := pretty p ]})).
  exact decimal_int_pages.
Defined.

Lemma users_page_from_one_witness :
  ∃ up,
    infinite_scroll_users decimal_int {[ "page" := "7" ]} = Some up
    ∧ page_users up = take 10 (drop (Z.to_nat (10 * (7 - 1))) users)
    ∧ (7 ≤ 5 → User.id <$> page_users up = seqZ (10 * 7 - 9) 10)
    ∧ (6 ≤ 7 → page_users up = [])
    ∧ page up = 7 + 1
    ∧ has_more up = bool_decide (7 < 5).
Proof.
  apply (users_page_from_one decimal_int {[ "page" := "7" ]} 7);
    [vm_compute; reflexivity | lia].
Defined.

Lemma users_page_below_one_witness :
  ∃ up,
    infinite_scroll_users decimal_int {[ "page" := "-1" ]} = Some up
    ∧ (-4 ≤ -1 ≤ -1 →
       User.id <$> page_users up = seqZ (10 * (-1 + 5) - 9) 10)
    ∧ (-1 = 0 ∨ -1 ≤ -5 → page_users up = [])
    ∧ page up = -1 + 1
    ∧ has_more up = true.
Proof.
  apply (users_page_below_one decimal_int {[ "page" := "-1" ]} (-1));
    [vm_compute; reflexivity | lia].
Defined.

(** * Properties of the e-mail check *)

Section split.
Variable sep : ascii.
Implicit Types (s pre post : string).

Lemma split_without s : contains sep s = false → split sep s = [s].
Proof.
  induction s as [| c s IH]; [done |]. simpl.
  destruct (decide (c = sep)); [done |]. intros Hs. by rewrite IH.
Qed.

Lemma split_with s :
  contains sep s = true → ∃ p q qs, split sep s = p :: q :: qs.
Proof.
  induction s as [| c s IH]; [done |]. simpl.
  destruct (decide (c = sep)).
  - intros _. destruct (contains sep s) eqn:Hs.
    + destruct (IH eq_refl) as (p & q & qs & ->). by eexists _, _, _.
    + rewrite split_without by done. by eexists _, _, _.
  - intros Hs. destruct (IH Hs) as (p & q & qs & ->). by eexists _, _, _.
Qed.

Lemma last_piece_cons p q qs :
  last_piece (p :: q :: qs) = last_piece (q :: qs).
Proof. done. Qed.

(** The last piece of a string that has the separator is what follows its
    last occurrence. *)
Lemma last_piece_split pre post :
  contains sep post = false →
  contains sep (pre +:+ String sep post) = true
  ∧ last_piece (split sep (pre +:+ String sep post)) = post.
Proof.
  intros Hpost. induction pre as [| c pre [IHc IHl]]; simpl.
  - destruct (decide (sep = sep)); [| done]. split; [done |].
    by rewrite split_without.
  - destruct (decide (c = sep)).
    + split; [done |].
      destruct (split_with _ IHc) as (p & q & qs & Hsplit).
      rewrite Hsplit in *. by rewrite last_piece_cons.
    + split; [done |].
      destruct (split_with _ IHc) as (p & q & qs & Hsplit).
      rewrite Hsplit in *. by rewrite !last_piece_cons in *.
Qed.

(** A string that has the separator splits at its last occurrence. *)
Lemma contains_last s :
  contains sep s = true →
  ∃ pre post, s = pre +:+ String sep post ∧ contains sep post = false.
Proof.
  induction s as [| c s IH]; [done |]. simpl.
  destruct (contains sep s) eqn:Hs.
  - intros _. destruct (IH eq_refl) as (pre & post & -> & Hpost).
    by exists (String c pre), post.
  - destruct (decide (c = sep)) as [-> |]; [| done].
    intros _. by exists "", s.
Qed.
End split.

(** X15.  [validate_email] answers 200 or 400.  It answers 200 exactly
    for the addresses that have an [@] whose last occurrence is followed
    by a part with a dot in it.  Nothing is asked of what stands before
    that [@], which may be empty, nor of where the dot stands. *)
Theorem validate_email_accepts (form : Form) :
  (status (validate_email form) = 200 ∨ status (validate_email form) = 400)
  ∧ (status (validate_email form) = 200
     ↔ ∃ pre post,
         form !! "email" = Some (pre +:+ String "@" post)
         ∧ contains "@" post = false
         ∧ contains "." post = true).
Proof.
  unfold validate_email.
  destruct (form !! "email") as [email |] eqn:Hemail; simpl.
  2: { split; [by right |]. split; [done |]. by intros (? & ? & ? & _). }
  destruct (decide (email = "")) as [-> | Hne]; simpl.
  { split; [by right |]. split; [done |].
    intros (pre & post & [= Heq] & _). by destruct pre. }
  destruct (contains "@" email) eqn:Hat; simpl.
  - destruct (contains_last _ _ Hat) as (pre & post & -> & Hpost).
    destruct (last_piece_split "@" pre post Hpost) as [_ ->].
    destruct (contains "." post) eqn:Hdot; simpl.
    + split; [by left |]. split; [| done]. intros _. by exists pre, post.
    + split; [by right |]. split; [done |].
      intros (pre' & post' & [= Heq] & Hpost' & Hdot').
      destruct (last_piece_split "@" pre' post' Hpost') as [_ Hlast'].
      destruct (last_piece_split "@" pre post Hpost) as [_ Hlast].
      rewrite <- Heq, Hlast in Hlast'. congruence.
  - split; [by right |]. split; [done |].
    intros (pre' & post' & [= ->] & Hpost' & _).
    destruct (last_piece_split "@" pre' post' Hpost') as [Hhas _].
    congruence.
Qed.
